(** * A shallow embedding of the pokedex cache-aside layer

    The TTL cache [src/pokecache.ts] (listed in README.md) and the three
    fetchers of [src/pokeapi.ts], over a small state-and-exception monad.
    Times are integer milliseconds as returned by [Date.now()]. *)

From Stdlib Require Import ZArith List Ascii String.
From stdpp Require Import base gmap strings list pretty.
Import ListNotations.
Local Set Warnings "-register-all".

(** ** Decoded JSON values

    What [response.json()] produces; the cache stores such values
    opaquely ([CacheEntry<any>]).  Numbers are modelled as integers. *)
Inductive json :=
| JNull
| JBool (b : bool)
| JNum (n : Z)
| JStr (s : string)
| JArr (l : list json)
| JObj (fields : list (string * json)).

(** JavaScript truthiness, as used by [if (cached)] in the fetchers. *)
Definition truthy (j : json) : bool :=
  match j with
  | JNull => false
  | JBool b => b
  | JNum n => negb (Z.eqb n 0)
  | JStr s => negb (String.eqb s "")
  | JArr _ | JObj _ => true
  end.

(** ** Runtime: clock, interval timers, outbound requests *)

(** Node's [setInterval] replaces a delay outside [1 .. 2^31-1] by 1. *)
Definition TIMEOUT_MAX : Z := 2147483647.

Definition node_delay (d : Z) : Z :=
  if (1 <=? d)%Z && (d <=? TIMEOUT_MAX)%Z then d else 1%Z.

Record Env := mkEnv {
  now : Z;                   (* what Date.now() returns *)
  timers : gmap nat Z;       (* active interval timers: id -> period *)
  next_timer : nat;          (* id given to the next setInterval *)
  requests : list string     (* URLs passed to fetch, oldest first *)
}.

(** ** The cache object *)

Record CacheEntry := mkEntry { createdAt : Z; val : json }.

Record Cache := mkCache {
  cache : gmap string CacheEntry;      (* #cache *)
  reapIntervalId : option nat;         (* #reapIntervalId *)
  interval : Z                         (* #interval *)
}.

Record Sys := mkSys { env : Env; obj : Cache }.

(** ** Errors and the state-and-exception monad *)

Inductive Error :=
| HttpError (status : Z)     (* throw new Error(`HTTP error! status: ...`) *)
| DecodeError                (* response.json() rejects *)
| NetworkFailure.            (* fetch(url) rejects *)

Inductive Exc (A : Type) :=
| Ok (a : A)
| Throw (e : Error).
Arguments Ok {A} a.
Arguments Throw {A} e.

(** A thrown error keeps the state reached so far: JavaScript does not
    roll back mutations made before a [throw]. *)
Definition ST (S A : Type) := S -> Exc A * S.

Definition ret {S A} (a : A) : ST S A := fun s => (Ok a, s).

Definition bind {S A B} (m : ST S A) (k : A -> ST S B) : ST S B :=
  fun s => match m s with
           | (Ok a, s') => k a s'
           | (Throw e, s') => (Throw e, s')
           end.

Definition throw {S A} (e : Error) : ST S A := fun s => (Throw e, s).

Global Instance ST_ret {S} : MRet (ST S) := fun A a => ret a.
Global Instance ST_bind {S} : MBind (ST S) := fun A B k m => bind m k.

(** State accessors. *)
Definition get_sys : ST Sys Sys := fun s => (Ok s, s).

Definition date_now : ST Sys Z := fun s => (Ok (now (env s)), s).

Definition set_cache (m : gmap string CacheEntry) (c : Cache) : Cache :=
  mkCache m (reapIntervalId c) (interval c).

Definition modify_map (f : gmap string CacheEntry -> gmap string CacheEntry)
  : ST Sys unit :=
  fun s => (Ok tt, mkSys (env s) (set_cache (f (cache (obj s))) (obj s))).

(** [setInterval(cb, d)] and [clearInterval(id)] on the environment. *)
Definition setInterval (d : Z) (e : Env) : nat * Env :=
  (next_timer e,
   mkEnv (now e) (<[next_timer e := node_delay d]> (timers e))
         (S (next_timer e)) (requests e)).

Definition clearInterval (id : nat) (e : Env) : Env :=
  mkEnv (now e) (delete id (timers e)) (next_timer e) (requests e).

(** ** Cache methods *)

(** [constructor(interval) { this.#interval = interval; this.#startReapLoop(); }]
    with [#startReapLoop] storing the id returned by [setInterval]. *)
Definition new_Cache (interval : Z) : ST Env Cache :=
  fun e =>
    let '(id, e') := setInterval interval e in
    (Ok (mkCache ∅ (Some id) interval), e').

(** [add(key, val) { this.#cache.set(key, { createdAt: Date.now(), val }); }] *)
Definition add (key : string) (v : json) : ST Sys unit :=
  t ← date_now;
  modify_map (fun m => <[key := mkEntry t v]> m).

(** [get(key)]: the entry, if any, is returned without any age check. *)
Definition get (key : string) : ST Sys (option json) :=
  s ← get_sys;
  match cache (obj s) !! key with
  | None => ret None
  | Some entry => ret (Some (val entry))
  end.

(** One iteration of the loop of [#reap]. *)
Definition reap_step (cutoff : Z) (key : string) (entry : CacheEntry)
    (m : gmap string CacheEntry) : gmap string CacheEntry :=
  if decide (createdAt entry < cutoff)%Z then delete key m else m.

(** [#reap]: [for (const [key, entry] of this.#cache.entries())
    if (entry.createdAt < cutoff) this.#cache.delete(key);]
    Only visited keys are deleted, so iterating the live map visits
    exactly the entries of the map as it was when the loop began. *)
Definition reap_map (cutoff : Z) (m : gmap string CacheEntry)
  : gmap string CacheEntry :=
  map_fold (reap_step cutoff) m m.

Definition reap : ST Sys unit :=
  t ← date_now;
  s ← get_sys;
  let cutoff := (t - interval (obj s))%Z in
  modify_map (reap_map cutoff).

(** [stopReapLoop()]. *)
Definition stopReapLoop : ST Sys unit :=
  fun s =>
    match reapIntervalId (obj s) with
    | Some id =>
        (Ok tt, mkSys (clearInterval id (env s))
                      (mkCache (cache (obj s)) None (interval (obj s))))
    | None => (Ok tt, s)
    end.

(** ** The event loop: clock and timer callbacks *)

Definition set_now (t : Z) : ST Sys unit :=
  fun s => (Ok tt, mkSys (mkEnv t (timers (env s)) (next_timer (env s))
                                (requests (env s))) (obj s)).

(** The runtime runs the callback [() => this.#reap()] of interval timer
    [id] at time [t], provided the timer has not been cleared. *)
Definition tick_at (id : nat) (t : Z) : ST Sys unit :=
  set_now t;;
  s ← get_sys;
  match timers (env s) !! id with
  | Some _ => reap
  | None => ret tt
  end.

Fixpoint ticks (id : nat) (ts : list Z) : ST Sys unit :=
  match ts with
  | [] => ret tt
  | t :: ts' => tick_at id t;; ticks id ts'
  end.

(** ** The cache-aside client ([src/pokeapi.ts]) *)

Definition baseURL : string := "https://pokeapi.co/api/v2".

(** What the remote answers to a GET: a transport failure, or a status
    code and a body that decodes ([Some]) or is malformed ([None]). *)
Inductive Outcome :=
| NetFail
| Resp (status : Z) (body : option json).

(** [response.ok]: the status is in 200..299. *)
Definition ok (status : Z) : bool := (200 <=? status)%Z && (status <=? 299)%Z.

(** [await fetch(url)], recording the request. *)
Definition fetch (net : string -> Outcome) (url : string) : ST Sys Outcome :=
  fun s =>
    let e := env s in
    (Ok (net url), mkSys (mkEnv (now e) (timers e) (next_timer e)
                                (requests e ++ [url])) (obj s)).

(** [await response.json()]. *)
Definition response_json (body : option json) : ST Sys json :=
  match body with
  | Some j => ret j
  | None => throw DecodeError
  end.

(** [if (cached)] on a [T | undefined]. *)
Definition truthy_opt (o : option json) : bool :=
  match o with
  | Some j => truthy j
  | None => false
  end.

(** The body shared by [fetchLocations], [fetchLocation] and
    [fetchPokemon] once the URL is computed. *)
Definition fetch_miss (net : string -> Outcome) (url : string) : ST Sys json :=
  response ← fetch net url;
  match response with
  | NetFail => throw NetworkFailure
  | Resp status body =>
      if negb (ok status) then throw (HttpError status) else
      data ← response_json body;
      add url data;;
      ret data
  end.

Definition fetch_via_cache (net : string -> Outcome) (url : string) : ST Sys json :=
  cached ← get url;
  match cached with
  | Some c => if truthy c then ret c else fetch_miss net url
  | None => fetch_miss net url
  end.

(** [pageURL || `${PokeAPI.baseURL}/location-area?offset=0&limit=20`];
    an absent or empty [pageURL] is falsy. *)
Definition locations_url (pageURL : option string) : string :=
  match pageURL with
  | Some p => if String.eqb p "" then
                String.append baseURL "/location-area?offset=0&limit=20"
              else p
  | None => String.append baseURL "/location-area?offset=0&limit=20"
  end.

Definition location_url (locationName : string) : string :=
  String.append baseURL (String.append "/location-area/" locationName).

Definition pokemon_url (pokemonName : string) : string :=
  String.append baseURL (String.append "/pokemon/" pokemonName).

Definition fetchLocations (net : string -> Outcome) (pageURL : option string)
  : ST Sys json := fetch_via_cache net (locations_url pageURL).

Definition fetchLocation (net : string -> Outcome) (locationName : string)
  : ST Sys json := fetch_via_cache net (location_url locationName).

Definition fetchPokemon (net : string -> Outcome) (pokemonName : string)
  : ST Sys json := fetch_via_cache net (pokemon_url pokemonName).

(** ** Sanity checks on concrete inputs *)

Definition env0 : Env := mkEnv 0 ∅ 0 [].

Definition sys_of (ttl : Z) (e : Env) : Sys :=
  match new_Cache ttl e with
  | (Ok c, e') => mkSys e' c
  | (Throw _, e') => mkSys e' (mkCache ∅ None ttl)
  end.

Example add_get_ex :
  fst ((add "a" (JStr "x");; set_now 50;; get "a") (sys_of 100 env0))
  = Ok (Some (JStr "x")).
Proof. reflexivity. Qed.

Example pokemon_url_ex :
  pokemon_url "pikachu" = "https://pokeapi.co/api/v2/pokemon/pikachu".
Proof. reflexivity. Qed.

Example add_overwrite_ex :
  fst ((add "k" (JStr "old");; add "k" (JStr "new");; get "k") (sys_of 5000 env0))
  = Ok (Some (JStr "new")).
Proof. reflexivity. Qed.

Example reap_ex :
  fst ((add "a" (JStr "x");; tick_at 0 100;; tick_at 0 200;; get "a")
         (sys_of 100 env0)) = Ok None.
Proof. reflexivity. Qed.

(** ** The two by-name operations *)

Inductive ByName := ByLocation | ByPokemon.

Definition by_name_url (b : ByName) (name : string) : string :=
  match b with
  | ByLocation => location_url name
  | ByPokemon => pokemon_url name
  end.

Definition fetchByName (net : string -> Outcome) (b : ByName) (name : string)
  : ST Sys json :=
  match b with
  | ByLocation => fetchLocation net name
  | ByPokemon => fetchPokemon net name
  end.

(** ** Input parsing and command dispatch ([src/repl.ts], [src/command.ts])

    Characters are Rocq [ascii] values read as Latin-1 code points
    (U+0000 .. U+00FF), so JavaScript's notions of white space and of
    lower case are written out for that range. *)

(** [\s] and [String.prototype.trim] on U+0000 .. U+00FF: TAB, LF, VT,
    FF, CR, SPACE and NO-BREAK SPACE. *)
Definition is_ws (c : ascii) : bool :=
  let n := nat_of_ascii c in
  ((9 <=? n) && (n <=? 13)) || (n =? 32) || (n =? 160).

(** [String.prototype.toLowerCase] on U+0000 .. U+00FF: A-Z and
    U+00C0 .. U+00DE except U+00D7 move down by 32. *)
Definition to_lower_char (c : ascii) : ascii :=
  let n := nat_of_ascii c in
  if ((65 <=? n) && (n <=? 90)) || ((192 <=? n) && (n <=? 222) && negb (n =? 215))
  then ascii_of_nat (n + 32) else c.

Fixpoint drop_ws (l : list ascii) : list ascii :=
  match l with
  | [] => []
  | c :: l' => if is_ws c then drop_ws l' else l
  end.

(** [trim()]: white space removed at both ends. *)
Definition trim (l : list ascii) : list ascii :=
  reverse (drop_ws (reverse (drop_ws l))).

(** [split(/\s+/)]: the pieces between maximal runs of white space; a
    leading or trailing run yields an empty first or last piece, and the
    empty string yields one empty piece.  [cur] is the current piece,
    reversed; [prev_ws] says whether the previous character was white. *)
Fixpoint split_go (l : list ascii) (cur : list ascii) (prev_ws : bool)
  : list (list ascii) :=
  match l with
  | [] => [rev cur]
  | c :: l' =>
      if is_ws c then
        if prev_ws then split_go l' cur true
        else rev cur :: split_go l' [] true
      else split_go l' (c :: cur) false
  end.

Definition split_ws (l : list ascii) : list (list ascii) := split_go l [] false.

(** [cleanInput(input) = input.trim().toLowerCase().split(/\s+/)]. *)
Definition cleanInput (input : string) : list string :=
  map string_of_list_ascii
    (split_ws (map to_lower_char (trim (list_ascii_of_string input)))).

(** A property read on a plain JavaScript object: an own property, one
    inherited from [Object.prototype], or nothing. *)
Inductive Lookup (A : Type) :=
| Own (a : A)
| Inherited (key : string)
| Missing.
Arguments Own {A} a.
Arguments Inherited {A} key.
Arguments Missing {A}.

Definition object_prototype_keys : list string :=
  ["constructor"; "__defineGetter__"; "__defineSetter__"; "hasOwnProperty";
   "__lookupGetter__"; "__lookupSetter__"; "isPrototypeOf";
   "propertyIsEnumerable"; "toString"; "valueOf"; "__proto__";
   "toLocaleString"].

(** [o[k]] on an object created by an object literal. *)
Definition obj_get {A} (own : gmap string A) (k : string) : Lookup A :=
  match own !! k with
  | Some a => Own a
  | None => if bool_decide (k ∈ object_prototype_keys) then Inherited k
            else Missing
  end.

(** [getCommands()]: command name -> description. *)
Definition getCommands : gmap string string :=
  list_to_map
    [("help", "Displays a help message");
     ("exit", "Exit the Pokedex");
     ("map", "Displays the next 20 location areas");
     ("mapb", "Displays the previous 20 location areas");
     ("explore", "Explore a location area to find Pokemon");
     ("catch", "Attempt to catch a Pokemon");
     ("inspect", "Inspect a caught Pokemon");
     ("pokedex", "List all caught Pokemon")].

(** What the ["line"] handler of [startREPL] does with a line. *)
Inductive Action :=
| AEmpty                              (* words.length === 0: prompt again *)
| ARun (name : string) (args : list string)
                                      (* await command.callback(state, ...args) *)
| ACallbackTypeError                  (* command is truthy but has no callback:
                                         the call throws a TypeError, reported
                                         as "Error executing command:" *)
| AUnknown.                           (* console.log("Unknown command") *)

Definition dispatch (commands : gmap string string) (line : string) : Action :=
  match cleanInput line with
  | [] => AEmpty
  | commandName :: args =>
      match obj_get commands commandName with
      | Own _ => ARun commandName args
      | Inherited _ => ACallbackTypeError
      | Missing => AUnknown
      end
  end.

Example cleanInput_test1 : cleanInput "  hello  world  " = ["hello"; "world"].
Proof. reflexivity. Qed.

Example cleanInput_test2 :
  cleanInput "Charmander Bulbasaur PIKACHU" = ["charmander"; "bulbasaur"; "pikachu"].
Proof. reflexivity. Qed.

Example dispatch_ex :
  dispatch getCommands "  CATCH Pikachu " = ARun "catch" ["pikachu"].
Proof. reflexivity. Qed.

(** ** Commands ([src/command_catch.ts], [src/command_inspect.ts],
    [src/command_explore.ts])

    The REPL state holds the client's cache and runtime ([sys]), the own
    properties of [state.pokedex] (an object literal, so other names fall
    through to [Object.prototype]) and the console output.  Errors now
    include the TypeError of reading a property of [null] or [undefined]
    and of iterating a non-iterable value. *)

Inductive AppError :=
| NetErr (e : Error)
| TypeError.

Inductive Line :=
| Log (s : string)                      (* console.log(s) *)
| LogErr (s : string) (e : AppError).   (* console.error(s, error) *)

Record Repl := mkRepl {
  sys : Sys;
  pokedex : gmap string json;
  out : list Line
}.

Inductive AExc (A : Type) :=
| AOk (a : A)
| AThrow (e : AppError).
Arguments AOk {A} a.
Arguments AThrow {A} e.

Definition App (A : Type) := Repl -> AExc A * Repl.

Definition aret {A} (a : A) : App A := fun r => (AOk a, r).
Definition abind {A B} (m : App A) (k : A -> App B) : App B :=
  fun r => match m r with
           | (AOk a, r') => k a r'
           | (AThrow e, r') => (AThrow e, r')
           end.
Global Instance App_ret : MRet App := fun A a => aret a.
Global Instance App_bind : MBind App := fun A B k m => abind m k.

Definition athrow {A} (e : AppError) : App A := fun r => (AThrow e, r).
Definition get_repl : App Repl := fun r => (AOk r, r).

Definition log (s : string) : App unit :=
  fun r => (AOk tt, mkRepl (sys r) (pokedex r) (out r ++ [Log s])).

Definition log_err (s : string) (e : AppError) : App unit :=
  fun r => (AOk tt, mkRepl (sys r) (pokedex r) (out r ++ [LogErr s e])).

Definition set_pokedex (name : string) (p : json) : App unit :=
  fun r => (AOk tt, mkRepl (sys r) (<[name := p]> (pokedex r)) (out r)).

(** [try { m } catch (error) { h(error) }]. *)
Definition try_catch (m : App unit) (h : AppError -> App unit) : App unit :=
  fun r => match m r with
           | (AOk a, r') => (AOk a, r')
           | (AThrow e, r') => h e r'
           end.

(** Running a step of the client's cache and runtime. *)
Definition lift {A} (m : ST Sys A) : App A :=
  fun r => match m (sys r) with
           | (Ok a, s') => (AOk a, mkRepl s' (pokedex r) (out r))
           | (Throw e, s') => (AThrow (NetErr e), mkRepl s' (pokedex r) (out r))
           end.

(** [JSON.parse] keeps the last of duplicate keys. *)
Fixpoint lookup_field (fs : list (string * json)) (f : string) : option json :=
  match fs with
  | [] => None
  | (k, v) :: fs' =>
      match lookup_field fs' f with
      | Some x => Some x
      | None => if String.eqb k f then Some v else None
      end
  end.

(** [v.f] for a decoded value ([None] is [undefined]).  The field names
    the commands read are not properties that strings, numbers, booleans,
    arrays or objects inherit. *)
Definition field (j : json) (f : string) : option json :=
  match j with
  | JObj fs => lookup_field fs f
  | _ => None
  end.

Definition prop (v : option json) (f : string) : App (option json) :=
  match v with
  | None | Some JNull => athrow TypeError
  | Some j => aret (field j f)
  end.

Local Open Scope Z_scope.

(** [JSON.parse] turns a number literal with integer value [a >= 0]
    into the nearest double (ties to even). *)
Definition round_double (a : Z) : Z :=
  if a <? 2 ^ 53 then a else
  let e := Z.log2 a - 52 in
  let q := a / 2 ^ e in
  let r := a mod 2 ^ e in
  let h := 2 ^ (e - 1) in
  (if (h <? r) || ((r =? h) && Z.odd q) then q + 1 else q) * 2 ^ e.

Fixpoint down (n : nat) : list Z :=
  match n with O => [] | S m => Z.of_nat m :: down m end.

(** The multiple of the largest power of ten that still parses back to
    the double [x] (the shortest digit string of Number::toString),
    the closest one to [x], and the even one on a tie. *)
Fixpoint shortest_go (x : Z) (js : list Z) : Z :=
  match js with
  | [] => x
  | j :: js' =>
      let p := 10 ^ j in
      let c1 := x / p * p in
      let c2 := c1 + p in
      match round_double c1 =? x, round_double c2 =? x with
      | true, true =>
          if x - c1 <? c2 - x then c1
          else if c2 - x <? x - c1 then c2
          else if Z.even (c1 / p) then c1 else c2
      | true, false => c1
      | false, true => c2
      | false, false => shortest_go x js'
      end
  end.

Fixpoint drop_zeros (l : list ascii) : list ascii :=
  match l with
  | c :: l' => if Ascii.eqb c "0"%char then drop_zeros l' else l
  | [] => []
  end.

(** Number::toString for a finite double [x >= 0] with an integer value:
    plain digits below 10^21, exponent form from there on. *)
Definition digits_str (x : Z) : string :=
  let c := shortest_go x (down (String.length (pretty x))) in
  let d := pretty c in
  if (String.length d <=? 21)%nat then d else
  match rev (drop_zeros (rev (list_ascii_of_string d))) with
  | [] => d
  | c0 :: rest =>
      String.append
        (string_of_list_ascii (c0 :: match rest with [] => [] | _ => "."%char :: rest end))
        (String.append "e+" (pretty (Z.of_nat (String.length d) - 1)))
  end.

(** [String(v)] for a decoded number literal with integer value [n];
    literals of 2^1024 - 2^970 and beyond parse to Infinity. *)
Definition number_str (n : Z) : string :=
  let x := round_double (Z.abs n) in
  let body := if 2 ^ 1024 <=? x then "Infinity" else digits_str x in
  if n <? 0 then String.append "-" body else body.

Local Close Scope Z_scope.

(** Whether a parsed object has an own property [k] (["__proto__"]
    included: [JSON.parse] defines it as an ordinary own property). *)
Definition has_own (fs : list (string * json)) (k : string) : bool :=
  existsb (fun kv => String.eqb kv.1 k) fs.

(** [String(v)] for a decoded value, [None] when it throws a TypeError.
    An object converts through [OrdinaryToPrimitive]: an own [toString]
    is not callable and is skipped, the inherited [valueOf] returns the
    object itself, so the conversion throws; without an own [toString],
    [Object.prototype.toString] gives ["[object Object]"].  An array
    converts by [join(",")], with [null] elements as empty strings. *)
Fixpoint json_str (j : json) : option string :=
  match j with
  | JNull => Some "null"
  | JBool b => Some (if b then "true" else "false")
  | JNum n => Some (number_str n)
  | JStr s => Some s
  | JArr l =>
      (fix go (l : list json) : option string :=
         match l with
         | [] => Some ""
         | [x] => match x with JNull => Some "" | _ => json_str x end
         | x :: l' =>
             s1 ← (match x with JNull => Some "" | _ => json_str x end);
             s2 ← go l';
             Some (String.append s1 (String.append "," s2))
         end) l
  | JObj fs => if has_own fs "toString" then None else Some "[object Object]"
  end.

(** [`${v}`] for a property value ([None] is [undefined]). *)
Definition js_str (v : option json) : option string :=
  match v with
  | None => Some "undefined"
  | Some j => json_str j
  end.

Definition to_str (v : option json) : App string :=
  match js_str v with
  | Some s => aret s
  | None => athrow TypeError
  end.

(** [v / 300] first converts [v] to a primitive; for a decoded value
    that throws exactly where [String(v)] does (an object's own
    [valueOf] or [toString] is never callable). *)
Definition to_numeric (v : option json) : App unit :=
  match js_str v with
  | Some _ => aret tt
  | None => athrow TypeError
  end.

Fixpoint iter (body : json -> App unit) (l : list json) : App unit :=
  match l with
  | [] => aret tt
  | x :: l' => body x;; iter body l'
  end.

(** [for (const x of v) body(x)]: arrays and strings are iterable. *)
Definition for_of (v : option json) (body : json -> App unit) : App unit :=
  match v with
  | Some (JArr l) => iter body l
  | Some (JStr s) =>
      iter body (map (fun c => JStr (String c EmptyString)) (list_ascii_of_string s))
  | _ => athrow TypeError
  end.

(** The fetchers with their console output: ["Cache hit for:"] or
    ["Cache miss, fetching:"] is printed before the rest of the call. *)
Definition logged_fetch (net : string -> Outcome) (url : string) : App json :=
  r ← get_repl;
  (if truthy_opt (val <$> cache (obj (sys r)) !! url)
   then log (String.append "Cache hit for: " url)
   else log (String.append "Cache miss, fetching: " url));;
  lift (fetch_via_cache net url).

(** Truthiness of [state.pokedex[name]]: inherited properties are
    functions or [Object.prototype], all truthy. *)
Definition lookup_truthy (l : Lookup json) : bool :=
  match l with
  | Own v => truthy v
  | Inherited _ => true
  | Missing => false
  end.

(** [commandCatch(state, ...args)].  [be / 300] may throw (see
    [to_numeric]); otherwise [roll be] is the outcome of
    [Math.random() > Math.min(be / 300, 0.9)] for the record's
    [base_experience] [be]: the random draw and the floating-point
    comparison are left as an argument. *)
Definition commandCatch (net : string -> Outcome) (roll : option json -> bool)
    (args : list string) : App unit :=
  match args with
  | [] => log "Usage: catch <pokemon-name>"
  | pokemonName :: _ =>
      r ← get_repl;
      if lookup_truthy (obj_get (pokedex r) pokemonName) then
        log (String.append "You already have "
               (String.append pokemonName " in your Pokedex!"))
      else
        log (String.append "Throwing a Pokeball at "
               (String.append pokemonName "..."));;
        try_catch
          (pokemon ← logged_fetch net (pokemon_url pokemonName);
           be ← prop (Some pokemon) "base_experience";
           to_numeric be;;
           if roll be then
             set_pokedex pokemonName pokemon;;
             log (String.append pokemonName " was caught!");;
             log "You may now inspect it with the inspect command."
           else log (String.append pokemonName " escaped!"))
          (fun error => log_err (String.append "Failed to catch "
                                   (String.append pokemonName ":")) error)
  end.

(** The [name] property of what [Object.prototype] provides under [k]:
    the prototype itself has none, its [constructor] is [Object], and
    every other entry is a method named [k]. *)
Definition inherited_name (k : string) : string :=
  if String.eqb k "__proto__" then "undefined"
  else if String.eqb k "constructor" then "Object" else k.

Definition inspect_record (pokemon : json) : App unit :=
  n ← prop (Some pokemon) "name";
  sn ← to_str n;
  log (String.append "Name: " sn);;
  h ← prop (Some pokemon) "height";
  sh ← to_str h;
  log (String.append "Height: " sh);;
  w ← prop (Some pokemon) "weight";
  sw ← to_str w;
  log (String.append "Weight: " sw);;
  log "Stats:";;
  stats ← prop (Some pokemon) "stats";
  for_of stats (fun stat =>
    st ← prop (Some stat) "stat";
    stn ← prop st "name";
    s1 ← to_str stn;
    bs ← prop (Some stat) "base_stat";
    s2 ← to_str bs;
    log (String.append "  -" (String.append s1 (String.append ": " s2))));;
  log "Types:";;
  types ← prop (Some pokemon) "types";
  for_of types (fun type =>
    ty ← prop (Some type) "type";
    tn ← prop ty "name";
    s ← to_str tn;
    log (String.append "  - " s)).

(** [commandInspect(state, ...args)]. *)
Definition commandInspect (args : list string) : App unit :=
  match args with
  | [] => log "Usage: inspect <pokemon-name>"
  | pokemonName :: _ =>
      r ← get_repl;
      match obj_get (pokedex r) pokemonName with
      | Missing => log "you have not caught that pokemon"
      | Own p =>
          if truthy p then inspect_record p
          else log "you have not caught that pokemon"
      | Inherited k =>
          log (String.append "Name: " (inherited_name k));;
          log "Height: undefined";;
          log "Weight: undefined";;
          log "Stats:";;
          athrow TypeError
      end
  end.

(** [commandExplore(state, ...args)]: errors are not caught here. *)
Definition commandExplore (net : string -> Outcome) (args : list string)
  : App unit :=
  match args with
  | [] => log "Usage: explore <location-area-name>"
  | locationName :: _ =>
      log (String.append "Exploring " (String.append locationName "..."));;
      location ← logged_fetch net (location_url locationName);
      log "Found Pokemon:";;
      encounters ← prop (Some location) "pokemon_encounters";
      for_of encounters (fun encounter =>
        p ← prop (Some encounter) "pokemon";
        pn ← prop p "name";
        s ← to_str pn;
        log (String.append " - " s))
  end.

Definition repl0 : Repl := mkRepl (sys_of 300000 env0) ∅ [].

(** Steps that only print: the client state and the Pokedex are kept and
    the output only grows. *)
Definition logs_only {A} (m : App A) : Prop :=
  ∀ r, sys (snd (m r)) = sys r ∧ pokedex (snd (m r)) = pokedex r ∧
       ∃ l, out (snd (m r)) = out r ++ l.

(** [x] is an object whose property [key] is present and not [null], so
    that [x.key.name] can be read. *)
Definition has_field (key : string) (x : json) : bool :=
  match x with
  | JObj f => match lookup_field f key with
              | None | Some JNull => false
              | Some _ => true
              end
  | _ => false
  end.

(** The value [v] converts to a string (and to a number) without a
    TypeError. *)
Definition str_ok (v : option json) : bool :=
  match js_str v with
  | Some _ => true
  | None => false
  end.

(** [x.key.name] for an object [x] with a non-null [key]. *)
Definition sub_name (x : json) (key : string) : option json :=
  match field x key with
  | Some j => field j "name"
  | None => None
  end.

(** A [stats] element that [inspect] prints without a TypeError. *)
Definition stat_ok (x : json) : bool :=
  has_field "stat" x && str_ok (sub_name x "stat") && str_ok (field x "base_stat").

(** An element whose [x.key.name] is printed without a TypeError. *)
Definition named_ok (key : string) (x : json) : bool :=
  has_field key x && str_ok (sub_name x key).

(** Steps that keep the client state (cache, timers, requests). *)
Definition keeps_sys {A} (m : App A) : Prop := ∀ r, sys (snd (m r)) = sys r.

Definition pikachu_stats : list json :=
  [JObj [("base_stat", JNum 35); ("stat", JObj [("name", JStr "hp")])]].

Definition pikachu_types : list json :=
  [JObj [("type", JObj [("name", JStr "electric")])]].

Definition pikachu_fields : list (string * json) :=
  [("name", JStr "pikachu"); ("height", JNum 4); ("weight", JNum 60);
   ("base_experience", JNum 112);
   ("stats", JArr pikachu_stats); ("types", JArr pikachu_types)].

Definition pikachu_repl : Repl :=
  mkRepl (sys repl0) {[ "pikachu" := JObj pikachu_fields ]} [].

Definition pikachu_net (url : string) : Outcome :=
  Resp 200 (Some (JObj pikachu_fields)).

Definition canalave_fields : list (string * json) :=
  [("name", JStr "canalave-city-area");
   ("pokemon_encounters",
     JArr [JObj [("pokemon", JObj [("name", JStr "tentacool")])];
           JObj [("pokemon", JObj [("name", JStr "tentacruel")])]])].

Example json_str_ex : json_str (JArr [JNum 1; JNull; JStr "a"]) = Some "1,,a".
Proof. reflexivity. Qed.

Example json_str_own_toString :
  json_str (JArr [JObj [("toString", JNum 1)]]) = None.
Proof. reflexivity. Qed.

Example number_str_ex :
  number_str (10 ^ 21) = "1e+21" ∧ number_str (2 ^ 60) = "1152921504606847000" ∧
  number_str (2 ^ 53 + 1) = "9007199254740992" ∧ number_str (-35) = "-35".
Proof. vm_compute. repeat split. Qed.

Example inspect_missing_ex :
  out (snd (commandInspect ["pikachu"] repl0))
    = [Log "you have not caught that pokemon"].
Proof. reflexivity. Qed.

(** ** Lemmas on the cache operations *)

(** The loop of [#reap] deletes exactly the entries older than [cutoff]. *)
Lemma lookup_reap_map cutoff (m : gmap string CacheEntry) k :
  reap_map cutoff m !! k =
  match m !! k with
  | Some e => if decide (createdAt e < cutoff)%Z then None else Some e
  | None => None
  end.
Proof.
  unfold reap_map.
  assert (Hinv : ∀ k', map_fold (reap_step cutoff) m m !! k' =
    match m !! k' with
    | Some e => if decide (createdAt e < cutoff)%Z then None else m !! k'
    | None => m !! k'
    end).
  { apply (map_fold_weak_ind (λ r m', ∀ k', r !! k' =
      match m' !! k' with
      | Some e => if decide (createdAt e < cutoff)%Z then None else m !! k'
      | None => m !! k'
      end)).
    - intros j. by rewrite lookup_empty.
    - intros i x m' r Hi IH j. unfold reap_step.
      destruct (decide (j = i)) as [->|Hne].
      + rewrite lookup_insert_eq.
        destruct (decide (createdAt x < cutoff)%Z).
        * by rewrite lookup_delete_eq.
        * by rewrite IH, Hi.
      + rewrite lookup_insert_ne by congruence.
        destruct (decide (createdAt x < cutoff)%Z).
        * rewrite lookup_delete_ne by congruence. apply IH.
        * apply IH. }
  rewrite Hinv. destruct (m !! k) eqn:E; [|done].
  by destruct (decide _).
Qed.

Definition at_time (t : Z) (s : Sys) : Sys := snd (set_now t s).

Definition reap_sys (s : Sys) : Sys :=
  mkSys (env s) (set_cache (reap_map (now (env s) - interval (obj s))
                              (cache (obj s))) (obj s)).

(** The state after the runtime's turn at time [t] for timer [id]. *)
Definition tick_state (id : nat) (s : Sys) (t : Z) : Sys :=
  let s1 := at_time t s in
  match timers (env s1) !! id with
  | Some _ => reap_sys s1
  | None => s1
  end.

Lemma tick_at_eq id t s : tick_at id t s = (Ok tt, tick_state id s t).
Proof.
  unfold tick_at, tick_state, mbind, ST_bind, bind. simpl.
  by destruct (timers (env s) !! id).
Qed.

Lemma ticks_eq id ts s :
  ticks id ts s = (Ok tt, fold_left (tick_state id) ts s).
Proof.
  revert s. induction ts as [|t ts IH]; intros s; [done|].
  simpl. unfold mbind, ST_bind, bind. rewrite tick_at_eq. apply IH.
Qed.

Lemma tick_state_frame id s t :
  timers (env (tick_state id s t)) = timers (env s) ∧
  requests (env (tick_state id s t)) = requests (env s) ∧
  interval (obj (tick_state id s t)) = interval (obj s) ∧
  reapIntervalId (obj (tick_state id s t)) = reapIntervalId (obj s).
Proof. unfold tick_state. simpl. by destruct (timers (env s) !! id). Qed.

Lemma tick_state_lookup id s t k :
  cache (obj (tick_state id s t)) !! k =
  match timers (env s) !! id with
  | Some _ =>
      match cache (obj s) !! k with
      | Some e => if decide (createdAt e < t - interval (obj s))%Z then None
                  else Some e
      | None => None
      end
  | None => cache (obj s) !! k
  end.
Proof.
  unfold tick_state. simpl. destruct (timers (env s) !! id); [|done].
  simpl. apply lookup_reap_map.
Qed.

Lemma ticks_frame id ts s :
  timers (env (fold_left (tick_state id) ts s)) = timers (env s) ∧
  requests (env (fold_left (tick_state id) ts s)) = requests (env s) ∧
  interval (obj (fold_left (tick_state id) ts s)) = interval (obj s) ∧
  reapIntervalId (obj (fold_left (tick_state id) ts s)) = reapIntervalId (obj s).
Proof.
  revert s. induction ts as [|t ts IH]; intros s; simpl; [done|].
  destruct (IH (tick_state id s t)) as (-> & -> & -> & ->).
  apply tick_state_frame.
Qed.

(** Sweeps only ever remove entries. *)
Lemma ticks_lookup_sub id ts s k :
  cache (obj (fold_left (tick_state id) ts s)) !! k = None ∨
  cache (obj (fold_left (tick_state id) ts s)) !! k = cache (obj s) !! k.
Proof.
  revert s. induction ts as [|t ts IH]; intros s; simpl; [by right|].
  destruct (IH (tick_state id s t)) as [H|H]; [by left|].
  rewrite H, tick_state_lookup.
  destruct (timers (env s) !! id); [|by right].
  destruct (cache (obj s) !! k); [|by left].
  destruct (decide _); [by left|by right].
Qed.

Lemma ticks_lookup_none id ts s k :
  cache (obj s) !! k = None →
  cache (obj (fold_left (tick_state id) ts s)) !! k = None.
Proof. intros H. destruct (ticks_lookup_sub id ts s k); congruence. Qed.

(** No sweep at a time [t] with [t - interval <= createdAt] removes an entry. *)
Lemma ticks_keep id ts s k e :
  cache (obj s) !! k = Some e →
  Forall (λ t, t - interval (obj s) <= createdAt e)%Z ts →
  cache (obj (fold_left (tick_state id) ts s)) !! k = Some e.
Proof.
  revert s. induction ts as [|t ts IH]; intros s He Hts; simpl; [done|].
  inversion Hts as [|? ? Ht Hts']; subst.
  destruct (tick_state_frame id s t) as (_ & _ & Hint & _).
  apply IH.
  - rewrite tick_state_lookup, He.
    destruct (timers (env s) !! id); [|done].
    destruct (decide _); [lia|done].
  - rewrite Hint. done.
Qed.

(** A sweep of a running timer at a time [t] with [createdAt < t - interval]
    removes the entry, and it stays removed. *)
Lemma ticks_remove id ts s k e p t :
  cache (obj s) !! k = Some e →
  timers (env s) !! id = Some p →
  t ∈ ts →
  (createdAt e < t - interval (obj s))%Z →
  cache (obj (fold_left (tick_state id) ts s)) !! k = None.
Proof.
  revert s. induction ts as [|t' ts IH]; intros s He Hid Hin Hlt;
    [by apply elem_of_nil in Hin|].
  simpl. destruct (tick_state_frame id s t') as (Htm & _ & Hint & _).
  assert (Hstep : cache (obj (tick_state id s t')) !! k = None ∨
                  cache (obj (tick_state id s t')) !! k = Some e).
  { rewrite tick_state_lookup, Hid, He. destruct (decide _); auto. }
  apply elem_of_cons in Hin as [->|Hin].
  - apply ticks_lookup_none. rewrite tick_state_lookup, Hid, He.
    by destruct (decide _); [|lia].
  - destruct Hstep as [Hn|Hs].
    + by apply ticks_lookup_none.
    + apply (IH _ Hs); [by rewrite Htm|done|by rewrite Hint].
Qed.

Lemma get_eq k s : get k s = (Ok (val <$> cache (obj s) !! k), s).
Proof.
  unfold get, mbind, ST_bind, bind. simpl. by destruct (cache (obj s) !! k).
Qed.

Lemma add_eq k v s :
  add k v s = (Ok tt, mkSys (env s)
    (set_cache (<[k := mkEntry (now (env s)) v]> (cache (obj s))) (obj s))).
Proof. reflexivity. Qed.

(** The state after [fetch] logged a request for [url]. *)
Definition logged (url : string) (s : Sys) : Sys :=
  mkSys (mkEnv (now (env s)) (timers (env s)) (next_timer (env s))
               (requests (env s) ++ [url])) (obj s).

Lemma fetch_via_cache_miss net url s :
  truthy_opt (val <$> cache (obj s) !! url) = false →
  fetch_via_cache net url s = fetch_miss net url s.
Proof.
  intros H. unfold fetch_via_cache, mbind, ST_bind, bind at 1.
  rewrite get_eq. simpl in *.
  destruct (cache (obj s) !! url) as [e|]; simpl in *; [|done].
  by rewrite H.
Qed.

Lemma fetch_via_cache_hit net url s e :
  cache (obj s) !! url = Some e →
  truthy (val e) = true →
  fetch_via_cache net url s = (Ok (val e), s).
Proof.
  intros He Ht. unfold fetch_via_cache, mbind, ST_bind, bind at 1.
  rewrite get_eq, He. simpl. by rewrite Ht.
Qed.

Lemma fetch_miss_success net url s status d :
  net url = Resp status (Some d) →
  ok status = true →
  fetch_miss net url s =
    (Ok d, mkSys (env (logged url s))
      (set_cache (<[url := mkEntry (now (env s)) d]> (cache (obj s))) (obj s))).
Proof.
  intros Hn Hok. unfold fetch_miss, mbind, ST_bind, bind. simpl.
  rewrite Hn, Hok. reflexivity.
Qed.

Lemma fetch_miss_status net url s status body :
  net url = Resp status body →
  ok status = false →
  fetch_miss net url s = (Throw (HttpError status), logged url s).
Proof.
  intros Hn Hok. unfold fetch_miss, mbind, ST_bind, bind. simpl.
  rewrite Hn, Hok. reflexivity.
Qed.

(** Whatever the remote answers, a miss issues exactly one request. *)
Lemma fetch_miss_requests net url s :
  requests (env (snd (fetch_miss net url s))) = requests (env s) ++ [url].
Proof.
  unfold fetch_miss, mbind, ST_bind, bind. simpl.
  destruct (net url) as [|status [d|]]; simpl; [done| |].
  - by destruct (ok status).
  - by destruct (ok status).
Qed.

Lemma fetchByName_eq net b name :
  fetchByName net b name = fetch_via_cache net (by_name_url b name).
Proof. by destruct b. Qed.

(** ** Claims *)

(** C1 (code_bug). The read path does not enforce logical expiry: with
    [ttl = 100], [add("a", "x")] at time 0, the sweep at its first firing
    (time 100, cutoff 0) keeps the entry since [0 < 0] is false, and
    [get("a")] at time 101, when [now - createdAt = 101 > ttl], still
    returns ["x"]; without any sweep it returns ["x"] as well. *)
Theorem get_returns_logically_expired :
  fst ((add "a" (JStr "x");; tick_at 0 100;; set_now 101;; get "a")
         (sys_of 100 env0)) = Ok (Some (JStr "x")) ∧
  fst ((add "a" (JStr "x");; set_now 101;; get "a")
         (sys_of 100 env0)) = Ok (Some (JStr "x")).
Proof. split; reflexivity. Qed.

(** C2. A by-name fetch that misses the cache and receives a non-success
    status throws [HttpError status], leaves the cache object exactly as
    it was, and after any sweeps a later call for the same name issues a
    request for the URL again. *)
Theorem by_name_failure_not_cached (net net' : string -> Outcome) (b : ByName)
    (name : string) (s : Sys) (status : Z) (body : option json)
    (id : nat) (ts : list Z) :
  truthy_opt (val <$> cache (obj s) !! by_name_url b name) = false ->
  net (by_name_url b name) = Resp status body ->
  ok status = false ->
  fst (fetchByName net b name s) = Throw (HttpError status) ∧
  obj (snd (fetchByName net b name s)) = obj s ∧
  requests (env (snd (fetchByName net b name s)))
    = requests (env s) ++ [by_name_url b name] ∧
  requests (env (snd (fetchByName net' b name
      (fold_left (tick_state id) ts (snd (fetchByName net b name s))))))
    = requests (env (snd (fetchByName net b name s))) ++ [by_name_url b name].
Proof.
  intros Hmiss Hnet Hok.
  rewrite !fetchByName_eq, fetch_via_cache_miss by done.
  rewrite (fetch_miss_status _ _ _ _ _ Hnet Hok). simpl.
  split; [done|]. split; [done|]. split; [done|].
  set (s2 := fold_left (tick_state id) ts (logged (by_name_url b name) s)).
  destruct (ticks_frame id ts (logged (by_name_url b name) s))
    as (_ & Hreq & _ & _).
  rewrite fetch_via_cache_miss.
  - rewrite fetch_miss_requests. unfold s2. by rewrite Hreq.
  - unfold s2.
    destruct (ticks_lookup_sub id ts (logged (by_name_url b name) s)
                (by_name_url b name)) as [H|H]; rewrite H; [done|].
    exact Hmiss.
Qed.

Lemma by_name_failure_not_cached_witness :
  truthy_opt (val <$> cache (obj (sys_of 300000 env0))
                !! by_name_url ByPokemon "pikachu") = false ∧
  (fun _ => Resp 404 None) (by_name_url ByPokemon "pikachu") = Resp 404 None ∧
  ok 404 = false ∧
  fst (fetchByName (fun _ => Resp 404 None) ByPokemon "pikachu"
         (sys_of 300000 env0)) = Throw (HttpError 404).
Proof.
  split; [reflexivity|]. split; [reflexivity|]. split; [reflexivity|].
  apply (by_name_failure_not_cached (fun _ => Resp 404 None)
           (fun _ => Resp 200 (Some (JObj []))) ByPokemon "pikachu"
           (sys_of 300000 env0) 404 None 0 []); reflexivity.
Defined.

(** C3. The first call of a by-name fetch, on a miss, issues exactly one
    request, returns the decoded record and stores it under the request
    URL with the current time; after any sweeps within the TTL a second
    call (whatever the remote would answer) issues no request, leaves the
    state unchanged and returns the same decoded record. *)
Theorem by_name_miss_then_hit (net net' : string -> Outcome) (b : ByName)
    (name : string) (s : Sys) (status : Z) (fields : list (string * json))
    (id : nat) (ts : list Z) :
  truthy_opt (val <$> cache (obj s) !! by_name_url b name) = false ->
  net (by_name_url b name) = Resp status (Some (JObj fields)) ->
  ok status = true ->
  Forall (λ t, t <= now (env s) + interval (obj s))%Z ts ->
  fst (fetchByName net b name s) = Ok (JObj fields) ∧
  requests (env (snd (fetchByName net b name s)))
    = requests (env s) ++ [by_name_url b name] ∧
  cache (obj (snd (fetchByName net b name s))) !! by_name_url b name
    = Some (mkEntry (now (env s)) (JObj fields)) ∧
  fetchByName net' b name
      (fold_left (tick_state id) ts (snd (fetchByName net b name s)))
    = (Ok (JObj fields),
       fold_left (tick_state id) ts (snd (fetchByName net b name s))).
Proof.
  intros Hmiss Hnet Hok Hts.
  rewrite !fetchByName_eq, fetch_via_cache_miss by done.
  rewrite (fetch_miss_success _ _ _ _ _ Hnet Hok). simpl.
  split; [done|]. split; [done|]. split; [by rewrite lookup_insert_eq|].
  apply (fetch_via_cache_hit _ _ _ (mkEntry (now (env s)) (JObj fields)));
    [|done].
  apply ticks_keep; simpl; [by rewrite lookup_insert_eq|].
  eapply Forall_impl; [exact Hts|]. simpl. intros t Ht. lia.
Qed.

Lemma by_name_miss_then_hit_witness :
  fst (fetchByName (fun _ => Resp 200 (Some (JObj []))) ByPokemon "pikachu"
         (sys_of 300000 env0)) = Ok (JObj []) ∧
  fetchByName (fun _ => NetFail) ByPokemon "pikachu"
      (fold_left (tick_state 0) [300000%Z]
         (snd (fetchByName (fun _ => Resp 200 (Some (JObj []))) ByPokemon
                 "pikachu" (sys_of 300000 env0))))
    = (Ok (JObj []),
       fold_left (tick_state 0) [300000%Z]
         (snd (fetchByName (fun _ => Resp 200 (Some (JObj []))) ByPokemon
                 "pikachu" (sys_of 300000 env0)))).
Proof.
  destruct (by_name_miss_then_hit (fun _ => Resp 200 (Some (JObj [])))
              (fun _ => NetFail) ByPokemon "pikachu" (sys_of 300000 env0)
              200 [] 0 [300000%Z]) as (H1 & _ & _ & H4).
  - reflexivity.
  - reflexivity.
  - reflexivity.
  - repeat constructor. simpl. lia.
  - split; [exact H1|exact H4].
Defined.

(** C4. [add] always completes normally; reading the key right after
    returns the value just added; and no other key is dropped (the key
    set grows by [key]: there is no capacity limit). *)
Theorem add_then_get (key : string) (v : json) (s : Sys) :
  fst (add key v s) = Ok tt ∧
  fst (get key (snd (add key v s))) = Ok (Some v) ∧
  dom (cache (obj (snd (add key v s)))) = {[key]} ∪ dom (cache (obj s)).
Proof.
  rewrite add_eq. simpl. rewrite get_eq. simpl.
  rewrite lookup_insert_eq. split; [done|]. split; [done|].
  apply dom_insert_L.
Qed.

(** C10. [get] never changes the state, whether the key is absent,
    present or logically expired; its result is the stored value. *)
Theorem get_read_only (key : string) (s : Sys) :
  snd (get key s) = s ∧ fst (get key s) = Ok (val <$> cache (obj s) !! key).
Proof. by rewrite get_eq. Qed.

(** C5 (code_bug). The sweep does not fire every [ttl]: for any
    [ttl > 2^31 - 1] ms, the interval timer registered by the constructor
    runs with a delay of 1 ms (Node's [setInterval] replaces such a delay
    by 1), so the sweep fires every millisecond while [#interval] keeps
    [ttl]. *)
Theorem sweep_period_not_ttl (ttl : Z) (e : Env) :
  (TIMEOUT_MAX < ttl)%Z ->
  timers (env (sys_of ttl e)) !! next_timer e = Some 1%Z ∧
  interval (obj (sys_of ttl e)) = ttl ∧
  1%Z <> ttl.
Proof.
  intros H. unfold TIMEOUT_MAX in H. simpl. rewrite lookup_insert_eq.
  unfold node_delay, TIMEOUT_MAX.
  destruct (1 <=? ttl)%Z eqn:E1, (ttl <=? 2147483647)%Z eqn:E2; simpl;
    rewrite ?Z.leb_le, ?Z.leb_gt in *; try lia.
  split; [done|]. split; [done|]. lia.
Qed.

Lemma sweep_period_not_ttl_witness :
  (TIMEOUT_MAX < 2147483648)%Z ∧
  timers (env (sys_of 2147483648 env0)) !! next_timer env0 = Some 1%Z.
Proof.
  split; [unfold TIMEOUT_MAX; lia|].
  apply (sweep_period_not_ttl 2147483648 env0). unfold TIMEOUT_MAX. lia.
Defined.

Lemma seq_eq {A} (m : ST Sys unit) (k : ST Sys A) s s' :
  m s = (Ok tt, s') -> (m;; k) s = k s'.
Proof. intros H. unfold mbind, ST_bind, bind. by rewrite H. Qed.

Lemma set_now_eq t s : set_now t s = (Ok tt, at_time t s).
Proof. reflexivity. Qed.

(** C6. Adding an existing key replaces its entry by one with the new
    value and the current time; so with [ttl = T], [add(k, v1)] at [t0],
    [add(k, v2)] at [t0 + T/2] and [get(k)] at [t0 + T + eps] with
    [0 < eps <= T/2] returns [v2], whatever sweeps ran before the second
    add and whatever sweeps ran after it up to the read. *)
Theorem overwrite_resets_freshness (s : Sys) (k : string) (v1 v2 : json)
    (t0 eps : Z) (id : nat) (ts1 ts2 : list Z) :
  (0 < eps)%Z -> (eps <= interval (obj s) / 2)%Z ->
  Forall (λ x, x <= t0 + interval (obj s) + eps)%Z ts2 ->
  cache (obj (snd ((set_now t0;; add k v1;; ticks id ts1;;
                    set_now (t0 + interval (obj s) / 2);; add k v2) s))) !! k
    = Some (mkEntry (t0 + interval (obj s) / 2) v2) ∧
  fst ((set_now t0;; add k v1;; ticks id ts1;;
        set_now (t0 + interval (obj s) / 2);; add k v2;; ticks id ts2;;
        set_now (t0 + interval (obj s) + eps);; get k) s) = Ok (Some v2).
Proof.
  intros Heps1 Heps2 Hts.
  rewrite !(seq_eq _ _ _ _ (set_now_eq _ _)).
  rewrite !(seq_eq _ _ _ _ (add_eq _ _ _)).
  rewrite !(seq_eq _ _ _ _ (ticks_eq _ _ _)).
  rewrite !(seq_eq _ _ _ _ (set_now_eq _ _)).
  rewrite !(seq_eq _ _ _ _ (add_eq _ _ _)).
  rewrite add_eq. simpl. split; [by rewrite lookup_insert_eq|].
  rewrite !(seq_eq _ _ _ _ (ticks_eq _ _ _)).
  rewrite (seq_eq _ _ _ _ (set_now_eq _ _)).
  rewrite get_eq. simpl.
  set (s1 := fold_left (tick_state id) ts1 _).
  rewrite ticks_keep with (e := mkEntry (t0 + interval (obj s) / 2) v2);
    [done|simpl; by rewrite lookup_insert_eq|].
  simpl.
  assert (Hint : interval (obj s1) = interval (obj s)).
  { unfold s1. by rewrite (proj1 (proj2 (proj2 (ticks_frame _ _ _)))). }
  rewrite Hint.
  eapply Forall_impl; [exact Hts|]. simpl. intros x Hx.
  assert (interval (obj s) / 2 + interval (obj s) / 2 <= interval (obj s))%Z.
  { pose proof (Z.mul_div_le (interval (obj s)) 2). lia. }
  lia.
Qed.

Lemma overwrite_resets_freshness_witness :
  fst ((set_now 0;; add "k" (JStr "v1");; ticks 0 [];;
        set_now (0 + interval (obj (sys_of 100 env0)) / 2);;
        add "k" (JStr "v2");; ticks 0 [100%Z];;
        set_now (0 + interval (obj (sys_of 100 env0)) + 1);; get "k")
         (sys_of 100 env0)) = Ok (Some (JStr "v2")).
Proof.
  apply (overwrite_resets_freshness (sys_of 100 env0) "k" (JStr "v1")
           (JStr "v2") 0 1 0 [] [100%Z]).
  - lia.
  - vm_compute. discriminate.
  - repeat constructor. vm_compute. discriminate.
Defined.

(** [stopReapLoop()] called [n] times in a row. *)
Fixpoint stop_n (n : nat) : ST Sys unit :=
  match n with
  | O => ret tt
  | S n' => stopReapLoop;; stop_n n'
  end.

Lemma tick_state_inactive id s t :
  timers (env s) !! id = None ->
  cache (obj (tick_state id s t)) = cache (obj s).
Proof. intros H. unfold tick_state. simpl. by rewrite H. Qed.

Lemma ticks_inactive id ts s :
  timers (env s) !! id = None ->
  cache (obj (fold_left (tick_state id) ts s)) = cache (obj s).
Proof.
  revert s. induction ts as [|t ts IH]; intros s H; simpl; [done|].
  destruct (tick_state_frame id s t) as (Htm & _).
  rewrite IH by (by rewrite Htm). by apply tick_state_inactive.
Qed.

Lemma stop_twice s :
  stopReapLoop (snd (stopReapLoop s)) = (Ok tt, snd (stopReapLoop s)).
Proof. unfold stopReapLoop. destruct (reapIntervalId (obj s)) eqn:E; simpl; rewrite ?E; reflexivity. Qed.

(** C7. [stopReapLoop] completes normally, clears the handle, and, if a
    sweep timer was registered, clears that timer so that its later
    firings never touch the map; on a stopped cache it changes nothing,
    so calling it [n + 1] times in a row is the same as calling it once. *)
Theorem stop_idempotent (s : Sys) (n : nat) :
  fst (stopReapLoop s) = Ok tt ∧
  reapIntervalId (obj (snd (stopReapLoop s))) = None ∧
  match reapIntervalId (obj s) with
  | Some id =>
      timers (env (snd (stopReapLoop s))) !! id = None ∧
      ∀ ts, cache (obj (fold_left (tick_state id) ts (snd (stopReapLoop s))))
            = cache (obj s)
  | None => snd (stopReapLoop s) = s
  end ∧
  stop_n (S n) s = stopReapLoop s.
Proof.
  split; [unfold stopReapLoop; by destruct (reapIntervalId (obj s))|].
  split; [unfold stopReapLoop; by destruct (reapIntervalId (obj s)) eqn:E|].
  split.
  - unfold stopReapLoop. destruct (reapIntervalId (obj s)) as [id|] eqn:E;
      [|done].
    simpl. split; [by rewrite lookup_delete_eq|].
    intros ts. rewrite ticks_inactive; [done|]. simpl.
    by rewrite lookup_delete_eq.
  - simpl. rewrite (seq_eq _ _ _ (snd (stopReapLoop s)));
      [|unfold stopReapLoop; by destruct (reapIntervalId (obj s))].
    assert (Hn : ∀ m, stop_n m (snd (stopReapLoop s))
                      = (Ok tt, snd (stopReapLoop s))).
    { induction m as [|m IH]; [done|]. simpl.
      rewrite (seq_eq _ _ _ _ (stop_twice s)). exact IH. }
    rewrite Hn. unfold stopReapLoop. by destruct (reapIntervalId (obj s)).
Qed.

(** C8 (corrected). The request URL, which is also the cache key, is a
    function of the operation's input: no argument or an empty page URL
    gives the first page with [offset=0&limit=20]; a non-empty page URL
    is used as it is; the by-name fetches append the name to a fixed
    path. *)
Theorem request_urls (net : string -> Outcome) (pageURL name : string) :
  pageURL <> "" ->
  fetchLocations net None = fetch_via_cache net
    "https://pokeapi.co/api/v2/location-area?offset=0&limit=20" ∧
  fetchLocations net (Some "") = fetch_via_cache net
    "https://pokeapi.co/api/v2/location-area?offset=0&limit=20" ∧
  fetchLocations net (Some pageURL) = fetch_via_cache net pageURL ∧
  fetchLocation net name = fetch_via_cache net
    (String.append "https://pokeapi.co/api/v2/location-area/" name) ∧
  fetchPokemon net name = fetch_via_cache net
    (String.append "https://pokeapi.co/api/v2/pokemon/" name).
Proof.
  intros Hp. unfold fetchLocations, fetchLocation, fetchPokemon,
    locations_url, location_url, pokemon_url.
  split; [done|]. split; [done|]. split.
  - destruct (String.eqb_spec pageURL ""); [congruence|done].
  - split; reflexivity.
Qed.

Lemma request_urls_witness :
  fetchLocations (fun _ => NetFail)
    (Some "https://pokeapi.co/api/v2/location-area?offset=20&limit=20")
  = fetch_via_cache (fun _ => NetFail)
      "https://pokeapi.co/api/v2/location-area?offset=20&limit=20".
Proof.
  apply (request_urls (fun _ => NetFail)
           "https://pokeapi.co/api/v2/location-area?offset=20&limit=20"
           "pikachu").
  discriminate.
Defined.

(** C8 counterexample: an explicit but empty page URL is not used; the
    list fetch requests (and caches under) the first-page URL. *)
Lemma empty_page_url_ignored :
  locations_url (Some "")
    = "https://pokeapi.co/api/v2/location-area?offset=0&limit=20" ∧
  locations_url (Some "") <> "".
Proof. split; [reflexivity|discriminate]. Qed.

(** C9 (corrected). The constructor has no failure path: for every
    [ttl], zero and negative included, it returns an empty cache holding
    [ttl] and registers its sweep timer at once, with period
    [node_delay ttl] (1 ms when [ttl < 1]). *)
Theorem new_Cache_total (ttl : Z) (e : Env) :
  new_Cache ttl e =
    (Ok (mkCache ∅ (Some (next_timer e)) ttl),
     mkEnv (now e) (<[next_timer e := node_delay ttl]> (timers e))
           (S (next_timer e)) (requests e)).
Proof. reflexivity. Qed.

(** C9 counterexample: [new Cache(0)] does not reject; it builds an empty
    cache whose sweep timer runs every millisecond. *)
Lemma new_Cache_zero_accepted :
  new_Cache 0 env0 =
    (Ok (mkCache ∅ (Some 0%nat) 0), mkEnv 0 {[0%nat := 1%Z]} 1 []).
Proof. reflexivity. Qed.

(** ** Lemmas on input parsing *)

Definition head_ok (l : list ascii) : Prop := ∀ x, head l = Some x -> is_ws x = false.
Definition last_ok (l : list ascii) : Prop := ∀ x, last l = Some x -> is_ws x = false.

Lemma is_ws_to_lower c : is_ws (to_lower_char c) = is_ws c.
Proof. destruct c as [[] [] [] [] [] [] [] []]; reflexivity. Qed.

Lemma to_lower_char_idem c : to_lower_char (to_lower_char c) = to_lower_char c.
Proof. destruct c as [[] [] [] [] [] [] [] []]; reflexivity. Qed.

Lemma split_go_nonempty l cur p : split_go l cur p <> [].
Proof.
  revert cur p. induction l as [|c l IH]; intros cur p; simpl; [done|].
  destruct (is_ws c), p; auto; discriminate.
Qed.

Lemma drop_ws_head_ok l : head_ok (drop_ws l).
Proof.
  induction l as [|c l IH]; simpl; [by intros ? ?|].
  destruct (is_ws c) eqn:Hc; [done|]. intros x [= <-]. done.
Qed.

Lemma drop_ws_suffix l :
  ∃ l0, l = l0 ++ drop_ws l ∧ Forall (λ c, is_ws c = true) l0.
Proof.
  induction l as [|c l IH]; simpl; [by exists []|].
  destruct (is_ws c) eqn:Hc.
  - destruct IH as (l0 & E & H). exists (c :: l0). simpl.
    split; [by rewrite <- E|by constructor].
  - by exists [].
Qed.

Lemma drop_ws_keeps l c :
  c ∈ l -> is_ws c = false -> c ∈ drop_ws l.
Proof.
  intros Hin Hc. destruct (drop_ws_suffix l) as (l0 & E & H).
  rewrite E in Hin. apply elem_of_app in Hin as [Hin|]; [|done].
  rewrite Forall_forall in H. specialize (H c Hin). congruence.
Qed.

Lemma last_map (f : ascii -> ascii) l : last (map f l) = option_map f (last l).
Proof.
  induction l as [|c l IH]; [done|].
  simpl map. rewrite !last_cons, IH. by destruct (last l).
Qed.

(** After [trim], a line with a non-blank character is non-empty and
    starts and ends with a non-blank character. *)
Lemma trim_ends l :
  (∃ c, c ∈ l ∧ is_ws c = false) ->
  trim l <> [] ∧ head_ok (trim l) ∧ last_ok (trim l).
Proof.
  intros (c & Hin & Hc). unfold trim.
  set (a := drop_ws l). set (b := drop_ws (reverse a)).
  assert (Ha : c ∈ a) by (by apply drop_ws_keeps).
  assert (Hb : c ∈ b).
  { apply drop_ws_keeps; [|done]. by apply elem_of_reverse. }
  assert (Hbne : b <> []) by (intros E; rewrite E in Hb; set_solver).
  split; [intros E; apply Hbne, (inj reverse); by rewrite E|].
  split.
  - intros x. rewrite head_reverse.
    destruct (drop_ws_suffix (reverse a)) as (l0 & E & _). fold b in E.
    assert (Hl : last (reverse a) = last b).
    { rewrite E, last_app. destruct (last b) eqn:Eb; [done|].
      by apply last_None in Eb. }
    rewrite <- Hl, last_reverse. apply drop_ws_head_ok.
  - intros x. rewrite last_reverse. apply drop_ws_head_ok.
Qed.

Lemma split_go_words_nonempty l cur p :
  last_ok l ->
  (l = [] -> cur <> []) ->
  (p = true -> cur = []) ->
  (p = false -> cur <> [] ∨ ∃ c l', l = c :: l' ∧ is_ws c = false) ->
  Forall (λ w, w <> []) (split_go l cur p).
Proof.
  revert cur p. induction l as [|c l IH]; intros cur p Hlast Hnil Hp Hq; simpl.
  - constructor; [|done]. intros E. apply (Hnil eq_refl).
    by apply (f_equal (@rev ascii)) in E; rewrite rev_involutive in E.
  - assert (Hl : last_ok l).
    { intros x Hx. apply Hlast. rewrite last_cons, Hx. done. }
    destruct (is_ws c) eqn:Hc.
    + assert (Hne : l <> []).
      { intros ->. specialize (Hlast c eq_refl). congruence. }
      assert (IH' : Forall (λ w, w <> []) (split_go l [] true)).
      { apply IH; [done|done|done|discriminate]. }
      destruct p.
      * rewrite (Hp eq_refl) in *. done.
      * constructor; [|done].
        destruct (Hq eq_refl) as [Hcur|(c' & l' & [= <- <-] & Hc')];
          [|congruence].
        intros E. apply Hcur.
        by apply (f_equal (@rev ascii)) in E; rewrite rev_involutive in E.
    + apply IH; [done|discriminate|discriminate|by left].
Qed.

Lemma split_go_words_chars (Q : ascii -> Prop) l cur p :
  Forall (λ c, is_ws c = false ∧ Q c) cur ->
  Forall Q l ->
  Forall (Forall (λ c, is_ws c = false ∧ Q c)) (split_go l cur p).
Proof.
  revert cur p. induction l as [|c l IH]; intros cur p Hcur Hl; simpl.
  - constructor; [by apply Forall_rev|done].
  - inversion Hl as [|? ? Hc Hl']; subst.
    destruct (is_ws c) eqn:Hw.
    + destruct p; [by apply IH|].
      constructor; [by apply Forall_rev|]. by apply IH.
    + apply IH; [by constructor|done].
Qed.

Lemma blank_or_not (l : list ascii) :
  (∀ c, c ∈ l -> is_ws c = true) ∨ (∃ c, c ∈ l ∧ is_ws c = false).
Proof.
  induction l as [|c l [IH|IH]].
  - left. intros c Hc. by apply elem_of_nil in Hc.
  - destruct (is_ws c) eqn:Hc.
    + left. intros x Hx. apply elem_of_cons in Hx as [->|Hx]; auto.
    + right. exists c. split; [apply elem_of_cons; by left|done].
  - right. destruct IH as (x & Hx & Hw). exists x.
    split; [apply elem_of_cons; by right|done].
Qed.

Lemma drop_ws_blank l : (∀ c, c ∈ l -> is_ws c = true) -> drop_ws l = [].
Proof.
  induction l as [|c l IH]; intros H; simpl; [done|].
  rewrite (H c) by (apply elem_of_cons; by left).
  apply IH. intros x Hx. apply H, elem_of_cons. by right.
Qed.

Lemma cleanInput_blank_eq line :
  (∀ c, c ∈ list_ascii_of_string line -> is_ws c = true) ->
  cleanInput line = [""].
Proof.
  intros H. unfold cleanInput, trim. rewrite (drop_ws_blank _ H).
  reflexivity.
Qed.

Lemma cleanInput_words_ok line :
  (∃ c, c ∈ list_ascii_of_string line ∧ is_ws c = false) ->
  Forall (λ w, w <> "" ∧
     Forall (λ c, is_ws c = false ∧ to_lower_char c = c) (list_ascii_of_string w))
    (cleanInput line).
Proof.
  intros Hn. unfold cleanInput, split_ws.
  destruct (trim_ends _ Hn) as (Hne & Hh & Hl).
  set (t := trim (list_ascii_of_string line)) in *.
  apply Forall_map.
  assert (H1 : Forall (λ w, w <> []) (split_go (map to_lower_char t) [] false)).
  { apply split_go_words_nonempty.
    - intros x Hx. rewrite last_map in Hx.
      destruct (last t) as [y|] eqn:Ey; [|done]. simpl in Hx. injection Hx as <-.
      rewrite is_ws_to_lower. by apply Hl.
    - intros E. exfalso. apply Hne. by apply map_eq_nil in E.
    - discriminate.
    - intros _. right. destruct t as [|c t'] eqn:Et; [done|].
      exists (to_lower_char c), (map to_lower_char t'). split; [done|].
      rewrite is_ws_to_lower. by apply Hh. }
  assert (H2 : Forall (Forall (λ c, is_ws c = false ∧ to_lower_char c = c))
                 (split_go (map to_lower_char t) [] false)).
  { apply split_go_words_chars; [done|].
    apply Forall_map, Forall_forall. intros x _. apply to_lower_char_idem. }
  eapply Forall_impl; [apply Forall_and; split; [exact H1|exact H2]|].
  simpl. intros w [Hw Hc]. rewrite list_ascii_of_string_of_list_ascii.
  split; [|done]. intros E.
  apply (f_equal list_ascii_of_string) in E.
  rewrite list_ascii_of_string_of_list_ascii in E. by subst.
Qed.

Lemma lower_forallb (w : string) :
  Forall (λ c, is_ws c = false ∧ to_lower_char c = c) (list_ascii_of_string w) ->
  forallb (λ c, Ascii.eqb (to_lower_char c) c) (list_ascii_of_string w) = true.
Proof.
  intros H. apply forallb_forall. intros x Hx.
  rewrite Forall_forall in H. apply list_elem_of_In in Hx.
  destruct (H x Hx) as [_ ->]. apply Ascii.eqb_refl.
Qed.

(** ** Further properties of the code *)

(** [cleanInput] never returns an empty array, so the
    [words.length === 0] branch of the REPL's line handler is never
    taken, whatever the command table. *)
Theorem cleanInput_never_empty (commands : gmap string string) (line : string) :
  cleanInput line <> [] ∧ dispatch commands line <> AEmpty.
Proof.
  assert (H : cleanInput line <> []).
  { unfold cleanInput, split_ws. intros E. apply map_eq_nil in E.
    by apply split_go_nonempty in E. }
  split; [done|]. unfold dispatch.
  destruct (cleanInput line) as [|w args]; [done|].
  by destruct (obj_get commands w).
Qed.

(** A blank line (only white space, or empty) is cleaned to the single
    empty word [""], which names no command: the REPL answers
    "Unknown command". *)
Theorem blank_line_unknown (line : string) :
  (∀ c, c ∈ list_ascii_of_string line -> is_ws c = true) ->
  cleanInput line = [""] ∧ dispatch getCommands line = AUnknown.
Proof.
  intros H. pose proof (cleanInput_blank_eq line H) as E.
  split; [done|]. unfold dispatch. rewrite E. reflexivity.
Qed.

Lemma blank_line_unknown_witness :
  cleanInput "   " = [""] ∧ dispatch getCommands "   " = AUnknown.
Proof.
  apply blank_line_unknown. intros c Hc. vm_compute in Hc.
  repeat (apply elem_of_cons in Hc as [->|Hc]; [reflexivity|]).
  by apply elem_of_nil in Hc.
Defined.

(** For a line with a non-blank character, every word [cleanInput]
    returns is non-empty, contains no white space and is already in
    lower case. *)
Theorem cleanInput_words (line : string) :
  (∃ c, c ∈ list_ascii_of_string line ∧ is_ws c = false) ->
  Forall (λ w, w <> "" ∧
     Forall (λ c, is_ws c = false ∧ to_lower_char c = c) (list_ascii_of_string w))
    (cleanInput line).
Proof. apply cleanInput_words_ok. Qed.

Lemma cleanInput_words_witness :
  Forall (λ w, w <> "" ∧
     Forall (λ c, is_ws c = false ∧ to_lower_char c = c) (list_ascii_of_string w))
    (cleanInput " Catch  PIKACHU ").
Proof.
  apply cleanInput_words. exists "C"%char. split; [|reflexivity].
  vm_compute. repeat (first [apply elem_of_cons; left; reflexivity
                            | apply elem_of_cons; right]).
Defined.

(** When the first word of a line is a property name of
    [Object.prototype], [state.commands[commandName]] finds that inherited
    property: it is truthy but has no [callback], so the REPL reports a
    TypeError ("Error executing command:") instead of "Unknown command".
    Since words are lower-cased, only ["constructor"] and ["__proto__"]
    can get there. *)
Theorem dispatch_inherited (line w : string) (args : list string) :
  cleanInput line = w :: args ->
  w ∈ object_prototype_keys ->
  dispatch getCommands line = ACallbackTypeError ∧
  (w = "constructor" ∨ w = "__proto__").
Proof.
  intros Hw Hk.
  assert (Hd : forallb (λ c, Ascii.eqb (to_lower_char c) c)
                 (list_ascii_of_string w) = true).
  { destruct (blank_or_not (list_ascii_of_string line)) as [Hb|Hn].
    - rewrite cleanInput_blank_eq in Hw by done. injection Hw as <- _.
      reflexivity.
    - pose proof (cleanInput_words_ok line Hn) as Hf. rewrite Hw in Hf.
      inversion Hf as [|? ? [_ Hc] _]. by apply lower_forallb. }
  unfold dispatch. rewrite Hw.
  apply list_elem_of_In in Hk. simpl in Hk.
  repeat destruct Hk as [<-|Hk];
    first [ split; [reflexivity|by left]
          | split; [reflexivity|by right]
          | vm_compute in Hd; discriminate
          | contradiction ].
Qed.

Lemma dispatch_inherited_witness :
  dispatch getCommands "Constructor x" = ACallbackTypeError ∧
  ("constructor" = "constructor" ∨ "constructor" = "__proto__").
Proof.
  apply (dispatch_inherited "Constructor x" "constructor" ["x"]);
    [reflexivity|].
  apply elem_of_cons. by left.
Defined.

(** ** Lemmas on the cache and the fetchers *)

Lemma reap_eq s : reap s = (Ok tt, reap_sys s).
Proof. reflexivity. Qed.

Lemma reap_map_idem cutoff (m : gmap string CacheEntry) :
  reap_map cutoff (reap_map cutoff m) = reap_map cutoff m.
Proof.
  apply map_eq. intros k. rewrite !lookup_reap_map.
  destruct (m !! k) as [e|]; [|done].
  destruct (decide (createdAt e < cutoff)%Z); [done|].
  by rewrite decide_False.
Qed.

Lemma reap_map_subseteq cutoff (m : gmap string CacheEntry) :
  reap_map cutoff m ⊆ m.
Proof.
  apply map_subseteq_spec. intros k e. rewrite lookup_reap_map.
  destruct (m !! k); [|done]. by destruct (decide _).
Qed.

(** Every run of a fetcher ends in one of three states: the same state
    (a hit), the state with one more request (a failed miss), or that
    state with the decoded value stored under [url] (a successful miss). *)
Lemma fetch_via_cache_cases net url s :
  snd (fetch_via_cache net url s) = s ∨
  snd (fetch_via_cache net url s) = logged url s ∨
  ∃ d, snd (fetch_via_cache net url s) =
    mkSys (env (logged url s))
      (set_cache (<[url := mkEntry (now (env s)) d]> (cache (obj s))) (obj s)).
Proof.
  assert (Hm : snd (fetch_miss net url s) = logged url s ∨
    ∃ d, snd (fetch_miss net url s) =
      mkSys (env (logged url s))
        (set_cache (<[url := mkEntry (now (env s)) d]> (cache (obj s))) (obj s))).
  { unfold fetch_miss, mbind, ST_bind, bind. simpl.
    destruct (net url) as [|status [d|]]; simpl; [by left| |].
    - destruct (ok status); simpl; [right; by exists d|by left].
    - destruct (ok status); simpl; by left. }
  destruct (truthy_opt (val <$> cache (obj s) !! url)) eqn:Ht.
  - left. destruct (cache (obj s) !! url) as [e|] eqn:He; [|done].
    by rewrite (fetch_via_cache_hit _ _ _ e).
  - right. rewrite fetch_via_cache_miss by done. exact Hm.
Qed.

Lemma fetch_via_cache_frame net url s k :
  k ≠ url →
  let s' := snd (fetch_via_cache net url s) in
  cache (obj s') !! k = cache (obj s) !! k ∧
  reapIntervalId (obj s') = reapIntervalId (obj s) ∧
  interval (obj s') = interval (obj s) ∧
  timers (env s') = timers (env s) ∧
  now (env s') = now (env s).
Proof.
  intros Hk s'. unfold s'.
  destruct (fetch_via_cache_cases net url s) as [->|[->|[d ->]]]; [done|done|].
  simpl. by rewrite lookup_insert_ne by congruence.
Qed.

(** A sweep ([#reap]) only removes entries, and a second sweep at the
    same time changes nothing. *)
Theorem sweep_shrinks_idempotent (s : Sys) :
  cache (obj (snd (reap s))) ⊆ cache (obj s) ∧
  reap (snd (reap s)) = (Ok tt, snd (reap s)).
Proof.
  rewrite reap_eq. split; [apply reap_map_subseteq|].
  rewrite reap_eq. unfold reap_sys. simpl. by rewrite reap_map_idem.
Qed.

(** On a miss, a transport failure throws [NetworkFailure] and a
    malformed body behind a success status throws [DecodeError]; either
    way the cache object is left as it was and exactly one request was
    made. *)
Theorem fetch_failure_not_cached (net : string -> Outcome) (url : string)
    (s : Sys) :
  truthy_opt (val <$> cache (obj s) !! url) = false ->
  (net url = NetFail ->
   fetch_via_cache net url s = (Throw NetworkFailure, logged url s)) ∧
  (∀ status, net url = Resp status None -> ok status = true ->
   fetch_via_cache net url s = (Throw DecodeError, logged url s)).
Proof.
  intros Hmiss. rewrite fetch_via_cache_miss by done.
  unfold fetch_miss, mbind, ST_bind, bind. simpl. split.
  - intros ->. reflexivity.
  - intros status -> Hok. by rewrite Hok.
Qed.

Lemma fetch_failure_not_cached_witness :
  fetch_via_cache (fun _ => NetFail) (pokemon_url "mew") (sys_of 300000 env0)
    = (Throw NetworkFailure, logged (pokemon_url "mew") (sys_of 300000 env0)).
Proof.
  apply (fetch_failure_not_cached (fun _ => NetFail) (pokemon_url "mew")
           (sys_of 300000 env0)); reflexivity.
Defined.

(** A cached value that is falsy ([null], [false], [0], [""]) does not
    count as a hit: the fetcher requests the URL again and stores the new
    value with the current time. *)
Theorem falsy_cached_value_refetched (net : string -> Outcome) (url : string)
    (s : Sys) (e : CacheEntry) (status : Z) (d : json) :
  cache (obj s) !! url = Some e ->
  truthy (val e) = false ->
  net url = Resp status (Some d) ->
  ok status = true ->
  fetch_via_cache net url s =
    (Ok d, mkSys (env (logged url s))
      (set_cache (<[url := mkEntry (now (env s)) d]> (cache (obj s))) (obj s))).
Proof.
  intros He Hf Hn Hok. rewrite fetch_via_cache_miss.
  - by apply fetch_miss_success with status.
  - by rewrite He.
Qed.

Lemma falsy_cached_value_refetched_witness :
  let s := snd (add (pokemon_url "mew") JNull (sys_of 300000 env0)) in
  fetch_via_cache (fun _ => Resp 200 (Some (JObj []))) (pokemon_url "mew") s =
    (Ok (JObj []), mkSys (env (logged (pokemon_url "mew") s))
      (set_cache (<[pokemon_url "mew" := mkEntry (now (env s)) (JObj [])]>
                   (cache (obj s))) (obj s))).
Proof.
  apply (falsy_cached_value_refetched _ _ _ (mkEntry 0 JNull) 200);
    reflexivity.
Defined.

(** A fetch touches no cache entry but the one for its own URL, and never
    changes the sweep timer, the TTL or the clock. *)
Theorem fetch_other_keys_untouched (net : string -> Outcome) (url k : string)
    (s : Sys) :
  k ≠ url ->
  let s' := snd (fetch_via_cache net url s) in
  cache (obj s') !! k = cache (obj s) !! k ∧
  reapIntervalId (obj s') = reapIntervalId (obj s) ∧
  interval (obj s') = interval (obj s) ∧
  timers (env s') = timers (env s) ∧
  now (env s') = now (env s).
Proof. apply fetch_via_cache_frame. Qed.

Lemma fetch_other_keys_untouched_witness :
  cache (obj (snd (fetch_via_cache (fun _ => Resp 200 (Some (JNum 1)))
                     (pokemon_url "mew") (sys_of 300000 env0))))
    !! pokemon_url "ditto"
  = cache (obj (sys_of 300000 env0)) !! pokemon_url "ditto".
Proof.
  apply (fetch_other_keys_untouched (fun _ => Resp 200 (Some (JNum 1)))
           (pokemon_url "mew") (pokemon_url "ditto") (sys_of 300000 env0)).
  vm_compute. discriminate.
Defined.

(** Two [add]s at the same time: the second value wins for the same key,
    and the order does not matter for different keys. *)
Theorem add_overwrite_and_commute (s : Sys) (k k' : string) (v1 v2 v v' : json) :
  (add k v1;; add k v2) s = add k v2 s ∧
  (k ≠ k' -> (add k v;; add k' v') s = (add k' v';; add k v) s).
Proof.
  unfold mbind, ST_bind, bind. rewrite !add_eq. simpl. rewrite ?add_eq. simpl.
  split.
  - by rewrite insert_insert_eq.
  - intros Hk. by rewrite insert_insert_ne by congruence.
Qed.

Lemma add_overwrite_and_commute_witness :
  (add "a" (JNum 1);; add "b" (JNum 2)) (sys_of 300000 env0)
    = (add "b" (JNum 2);; add "a" (JNum 1)) (sys_of 300000 env0).
Proof.
  apply (add_overwrite_and_commute (sys_of 300000 env0) "a" "b" (JNum 0)
           (JNum 0) (JNum 1) (JNum 2)).
  discriminate.
Defined.

(** Two caches built one after the other get different sweep timers, and
    stopping the second leaves the first one's timer running with its
    period. *)
Theorem two_caches_separate_timers (t1 t2 : Z) (e e1 e2 : Env) (c1 c2 : Cache) :
  new_Cache t1 e = (Ok c1, e1) ->
  new_Cache t2 e1 = (Ok c2, e2) ->
  reapIntervalId c1 ≠ reapIntervalId c2 ∧
  ∃ id1, reapIntervalId c1 = Some id1 ∧
    timers (env (snd (stopReapLoop (mkSys e2 c2)))) !! id1
      = Some (node_delay t1) ∧
    reapIntervalId (obj (snd (stopReapLoop (mkSys e2 c2)))) = None.
Proof.
  unfold new_Cache, setInterval. simpl. intros H1 H2.
  injection H1 as <- <-. injection H2 as <- <-. simpl.
  split; [intros H; injection H; lia|].
  exists (next_timer e). split; [done|]. split; [|done].
  rewrite lookup_delete_ne by lia.
  rewrite lookup_insert_ne by lia. by rewrite lookup_insert_eq.
Qed.

Lemma two_caches_separate_timers_witness :
  reapIntervalId (mkCache ∅ (Some 0) 100) ≠ reapIntervalId (mkCache ∅ (Some 1) 200).
Proof.
  apply (two_caches_separate_timers 100 200 env0
           (mkEnv 0 {[0 := 100%Z]} 1 []) (mkEnv 0 {[1 := 200%Z; 0 := 100%Z]} 2 [])
           (mkCache ∅ (Some 0) 100) (mkCache ∅ (Some 1) 200)); reflexivity.
Defined.

(** ** Lemmas on the commands *)

Lemma fetch_via_cache_throw net url s e :
  fst (fetch_via_cache net url s) = Throw e ->
  truthy_opt (val <$> cache (obj s) !! url) = false ∧
  fetch_via_cache net url s = (Throw e, logged url s).
Proof.
  destruct (truthy_opt (val <$> cache (obj s) !! url)) eqn:Ht.
  - destruct (cache (obj s) !! url) as [c|] eqn:Hc; [|done].
    rewrite (fetch_via_cache_hit _ _ _ c) by done. discriminate.
  - rewrite fetch_via_cache_miss by done. intros H. split; [done|].
    revert H. unfold fetch_miss, mbind, ST_bind, bind. simpl.
    destruct (net url) as [|status [d|]]; simpl.
    + by intros [= ->].
    + destruct (ok status); simpl; [discriminate|by intros [= ->]].
    + destruct (ok status); simpl; by intros [= ->].
Qed.

Lemma logged_fetch_miss net url r :
  truthy_opt (val <$> cache (obj (sys r)) !! url) = false ->
  logged_fetch net url r =
    lift (fetch_via_cache net url)
      (mkRepl (sys r) (pokedex r)
         (out r ++ [Log (String.append "Cache miss, fetching: " url)])).
Proof. intros H. unfold logged_fetch, mbind, App_bind, abind. simpl. by rewrite H. Qed.

Lemma logged_fetch_hit net url r e :
  cache (obj (sys r)) !! url = Some e ->
  truthy (val e) = true ->
  logged_fetch net url r =
    (AOk (val e), mkRepl (sys r) (pokedex r)
                    (out r ++ [Log (String.append "Cache hit for: " url)])).
Proof.
  intros He Ht. unfold logged_fetch, mbind, App_bind, abind. simpl.
  rewrite He. simpl. rewrite Ht. unfold lift. simpl.
  by rewrite (fetch_via_cache_hit _ _ _ e).
Qed.

Lemma logged_fetch_throw net url r e :
  fst (fetch_via_cache net url (sys r)) = Throw e ->
  logged_fetch net url r =
    (AThrow (NetErr e),
     mkRepl (logged url (sys r)) (pokedex r)
       (out r ++ [Log (String.append "Cache miss, fetching: " url)])).
Proof.
  intros H. destruct (fetch_via_cache_throw _ _ _ _ H) as [Hm Heq].
  rewrite logged_fetch_miss by done. unfold lift. simpl. by rewrite Heq.
Qed.

Lemma logged_fetch_miss_ok net url r status d :
  truthy_opt (val <$> cache (obj (sys r)) !! url) = false ->
  net url = Resp status (Some d) ->
  ok status = true ->
  logged_fetch net url r =
    (AOk d, mkRepl (mkSys (env (logged url (sys r)))
                      (set_cache (<[url := mkEntry (now (env (sys r))) d]>
                                   (cache (obj (sys r)))) (obj (sys r))))
              (pokedex r)
              (out r ++ [Log (String.append "Cache miss, fetching: " url)])).
Proof.
  intros Hm Hn Hok. rewrite logged_fetch_miss by done. unfold lift. simpl.
  rewrite fetch_via_cache_miss by done.
  by rewrite (fetch_miss_success _ _ _ _ _ Hn Hok).
Qed.

Lemma catch_seen net roll name rest r :
  lookup_truthy (obj_get (pokedex r) name) = true ->
  commandCatch net roll (name :: rest) r =
    (AOk tt, mkRepl (sys r) (pokedex r)
       (out r ++ [Log (String.append "You already have "
                         (String.append name " in your Pokedex!"))])).
Proof. intros H. unfold commandCatch, mbind, App_bind, abind, get_repl. by rewrite H. Qed.

Lemma catch_unseen net roll name rest r :
  lookup_truthy (obj_get (pokedex r) name) = false ->
  commandCatch net roll (name :: rest) r =
    try_catch
      (pokemon ← logged_fetch net (pokemon_url name);
       be ← prop (Some pokemon) "base_experience";
       to_numeric be;;
       if roll be then
         set_pokedex name pokemon;;
         log (String.append name " was caught!");;
         log "You may now inspect it with the inspect command."
       else log (String.append name " escaped!"))
      (fun error => log_err (String.append "Failed to catch "
                               (String.append name ":")) error)
      (mkRepl (sys r) (pokedex r)
         (out r ++ [Log (String.append "Throwing a Pokeball at "
                           (String.append name "..."))])).
Proof. intros H. unfold commandCatch, mbind, App_bind, abind, get_repl. by rewrite H. Qed.

Lemma keeps_sys_bind {A B} (m : App A) (k : A -> App B) :
  keeps_sys m -> (∀ a, keeps_sys (k a)) -> keeps_sys (m ≫= k).
Proof.
  intros Hm Hk r. unfold mbind, App_bind, abind. specialize (Hm r).
  destruct (m r) as [[a|e] r'] eqn:E; simpl in *; [|done].
  by rewrite Hk.
Qed.

Lemma keeps_sys_ret {A} (a : A) : keeps_sys (aret a).
Proof. done. Qed.

Lemma keeps_sys_throw {A} e : keeps_sys (@athrow A e).
Proof. done. Qed.

Lemma keeps_sys_log s : keeps_sys (log s).
Proof. done. Qed.

Lemma keeps_sys_log_err s e : keeps_sys (log_err s e).
Proof. done. Qed.

Lemma keeps_sys_set_pokedex k v : keeps_sys (set_pokedex k v).
Proof. done. Qed.

Lemma keeps_sys_prop v f : keeps_sys (prop v f).
Proof. by destruct v as [[| | | | |]|]. Qed.

Lemma keeps_sys_to_numeric v : keeps_sys (to_numeric v).
Proof. unfold to_numeric. by destruct (js_str v). Qed.

Lemma keeps_sys_try_catch (m : App unit) h :
  keeps_sys m -> (∀ e, keeps_sys (h e)) -> keeps_sys (try_catch m h).
Proof.
  intros Hm Hh r. unfold try_catch. specialize (Hm r).
  destruct (m r) as [[a|e] r'] eqn:E; simpl in *; [done|].
  by rewrite Hh.
Qed.

Lemma try_catch_bind_ok {A} (m : App A) (k : A -> App unit) h r a r' :
  m r = (AOk a, r') -> try_catch (m ≫= k) h r = try_catch (k a) h r'.
Proof. intros H. unfold try_catch, mbind, App_bind, abind. by rewrite H. Qed.

(** Once the URL of a record holds a truthy value, a catch of that name
    leaves the client's state as it is: no request, no cache change. *)
Lemma catch_hit_sys net roll name rest r e :
  cache (obj (sys r)) !! pokemon_url name = Some e ->
  truthy (val e) = true ->
  sys (snd (commandCatch net roll (name :: rest) r)) = sys r.
Proof.
  intros He Ht.
  destruct (lookup_truthy (obj_get (pokedex r) name)) eqn:Hs.
  - by rewrite catch_seen.
  - rewrite catch_unseen by done.
    erewrite try_catch_bind_ok; [|apply (logged_fetch_hit _ _ _ e); eassumption].
    rewrite keeps_sys_try_catch; [done| |intros; apply keeps_sys_log_err].
    apply keeps_sys_bind; [apply keeps_sys_prop|intros be].
    apply keeps_sys_bind; [apply keeps_sys_to_numeric|intros _].
    destruct (roll be).
    + apply keeps_sys_bind; [apply keeps_sys_set_pokedex|intros _].
      apply keeps_sys_bind; [apply keeps_sys_log|intros _]. apply keeps_sys_log.
    + apply keeps_sys_log.
Qed.

Lemma catch_miss_ok_eq net roll name rest r status fs :
  lookup_truthy (obj_get (pokedex r) name) = false ->
  truthy_opt (val <$> cache (obj (sys r)) !! pokemon_url name) = false ->
  net (pokemon_url name) = Resp status (Some (JObj fs)) ->
  ok status = true ->
  commandCatch net roll (name :: rest) r =
    (AOk tt, mkRepl (mkSys (env (logged (pokemon_url name) (sys r)))
                      (set_cache (<[pokemon_url name :=
                                    mkEntry (now (env (sys r))) (JObj fs)]>
                                   (cache (obj (sys r)))) (obj (sys r))))
              (if str_ok (lookup_field fs "base_experience")
                  && roll (lookup_field fs "base_experience")
               then <[name := JObj fs]> (pokedex r) else pokedex r)
              (out (snd (commandCatch net roll (name :: rest) r)))).
Proof.
  intros Hs Hm Hn Hok. rewrite catch_unseen by done.
  erewrite try_catch_bind_ok;
    [|apply (logged_fetch_miss_ok _ _ _ status (JObj fs)); eassumption].
  unfold try_catch, mbind, App_bind, abind, to_numeric, str_ok. simpl.
  destruct (js_str (lookup_field fs "base_experience")); simpl; [|done].
  by destruct (roll (lookup_field fs "base_experience")).
Qed.

(** [catch] of a name already in the Pokedex (an own truthy entry, or a
    property name of [Object.prototype] such as ["constructor"], which
    the plain-object Pokedex finds through its prototype) only prints
    "You already have ... in your Pokedex!": no request is made and
    nothing else changes. *)
Theorem catch_already_caught (net : string -> Outcome)
    (roll : option json -> bool) (name : string) (rest : list string)
    (r : Repl) :
  (∃ p, pokedex r !! name = Some p ∧ truthy p = true) ∨
  (pokedex r !! name = None ∧ name ∈ object_prototype_keys) ->
  commandCatch net roll (name :: rest) r =
    (AOk tt, mkRepl (sys r) (pokedex r)
       (out r ++ [Log (String.append "You already have "
                         (String.append name " in your Pokedex!"))])).
Proof.
  intros H. apply catch_seen. unfold obj_get.
  destruct H as [(p & Hp & Ht)|[Hn Hk]].
  - by rewrite Hp.
  - rewrite Hn. by rewrite bool_decide_eq_true_2.
Qed.

Lemma catch_already_caught_witness :
  commandCatch (fun _ => NetFail) (fun _ => true) ["constructor"] repl0 =
    (AOk tt, mkRepl (sys repl0) (pokedex repl0)
       (out repl0 ++ [Log (String.append "You already have "
                         (String.append "constructor" " in your Pokedex!"))])).
Proof.
  apply catch_already_caught. right. split; [reflexivity|].
  apply elem_of_cons. by left.
Defined.

(** When [fetchPokemon] throws (bad status, transport failure or
    malformed body), [catch] reports "Failed to catch NAME:" with the
    error and completes normally; the Pokedex and the cache object are
    unchanged and the only other effect is the one request. *)
Theorem catch_fetch_error_reported (net : string -> Outcome)
    (roll : option json -> bool) (name : string) (rest : list string)
    (r : Repl) (e : Error) :
  lookup_truthy (obj_get (pokedex r) name) = false ->
  fst (fetchPokemon net name (sys r)) = Throw e ->
  commandCatch net roll (name :: rest) r =
    (AOk tt,
     mkRepl (logged (pokemon_url name) (sys r)) (pokedex r)
       (out r ++ [Log (String.append "Throwing a Pokeball at "
                         (String.append name "..."));
                  Log (String.append "Cache miss, fetching: " (pokemon_url name));
                  LogErr (String.append "Failed to catch "
                            (String.append name ":")) (NetErr e)])).
Proof.
  intros Hs Hf. rewrite catch_unseen by done.
  unfold try_catch, mbind, App_bind, abind.
  rewrite (logged_fetch_throw _ _ _ e) by done. unfold log_err. simpl.
  rewrite <- !app_assoc. reflexivity.
Qed.

Lemma catch_fetch_error_reported_witness :
  fst (commandCatch (fun _ => Resp 404 None) (fun _ => true) ["mew"] repl0)
    = AOk tt.
Proof.
  rewrite (catch_fetch_error_reported _ _ _ _ _ (HttpError 404));
    reflexivity.
Defined.

(** [catch] of a new name whose record is not cached requests it once and
    caches it, whether it is caught, escapes or fails on a
    [base_experience] that cannot be converted; the Pokedex gains the
    record exactly when [be / 300] evaluates and the throw succeeds.  Any
    later [catch] of the same name leaves the client's state alone: the
    name is then either in the Pokedex or served from the cache. *)
Theorem catch_new_name (net : string -> Outcome) (roll : option json -> bool)
    (name : string) (rest : list string) (r : Repl) (status : Z)
    (fs : list (string * json)) :
  lookup_truthy (obj_get (pokedex r) name) = false ->
  truthy_opt (val <$> cache (obj (sys r)) !! pokemon_url name) = false ->
  net (pokemon_url name) = Resp status (Some (JObj fs)) ->
  ok status = true ->
  let r1 := snd (commandCatch net roll (name :: rest) r) in
  fst (commandCatch net roll (name :: rest) r) = AOk tt ∧
  requests (env (sys r1)) = requests (env (sys r)) ++ [pokemon_url name] ∧
  cache (obj (sys r1)) !! pokemon_url name
    = Some (mkEntry (now (env (sys r))) (JObj fs)) ∧
  pokedex r1 = (if str_ok (lookup_field fs "base_experience")
                   && roll (lookup_field fs "base_experience")
                then <[name := JObj fs]> (pokedex r) else pokedex r) ∧
  ∀ net' roll' rest',
    sys (snd (commandCatch net' roll' (name :: rest') r1)) = sys r1.
Proof.
  intros Hs Hm Hn Hok r1.
  pose proof (catch_miss_ok_eq net roll name rest r status fs Hs Hm Hn Hok) as Heq.
  fold r1 in Heq.
  assert (Hc : cache (obj (sys r1)) !! pokemon_url name
                = Some (mkEntry (now (env (sys r))) (JObj fs))).
  { unfold r1. rewrite Heq. simpl. by rewrite lookup_insert_eq. }
  split; [unfold r1; by rewrite Heq|].
  split; [unfold r1; by rewrite Heq|].
  split; [exact Hc|].
  split; [unfold r1; by rewrite Heq|].
  intros net' roll' rest'.
  exact (catch_hit_sys net' roll' name rest' r1 _ Hc eq_refl).
Qed.

Lemma catch_new_name_witness :
  fst (commandCatch (fun _ => Resp 200 (Some (JObj [("base_experience", JNum 112)])))
         (fun _ => true) ["pikachu"] repl0) = AOk tt.
Proof.
  apply (catch_new_name _ _ _ _ _ 200 [("base_experience", JNum 112)]);
    reflexivity.
Defined.

Lemma logs_only_bind {A B} (m : App A) (k : A -> App B) :
  logs_only m -> (∀ a, logs_only (k a)) -> logs_only (m ≫= k).
Proof.
  intros Hm Hk r. unfold mbind, App_bind, abind.
  destruct (Hm r) as (H1 & H2 & l1 & H3).
  destruct (m r) as [[a|e] r'] eqn:E; simpl in *.
  - destruct (Hk a r') as (H4 & H5 & l2 & H6).
    split; [congruence|]. split; [congruence|].
    exists (l1 ++ l2). by rewrite H6, H3, app_assoc.
  - split; [done|]. split; [done|]. by exists l1.
Qed.

Lemma logs_only_ret {A} (a : A) : logs_only (aret a).
Proof. intros r. split; [done|]. split; [done|]. exists []. by rewrite app_nil_r. Qed.

Lemma logs_only_throw {A} e : logs_only (@athrow A e).
Proof. intros r. split; [done|]. split; [done|]. exists []. by rewrite app_nil_r. Qed.

Lemma logs_only_get : logs_only get_repl.
Proof. intros r. split; [done|]. split; [done|]. exists []. by rewrite app_nil_r. Qed.

Lemma logs_only_log s : logs_only (log s).
Proof. intros r. split; [done|]. split; [done|]. by eexists. Qed.

Lemma logs_only_prop v f : logs_only (prop v f).
Proof.
  destruct v as [[| | | | |]|]; simpl;
    first [apply logs_only_throw | apply logs_only_ret].
Qed.

Lemma logs_only_to_str v : logs_only (to_str v).
Proof.
  unfold to_str. destruct (js_str v); [apply logs_only_ret|apply logs_only_throw].
Qed.

Lemma logs_only_iter body l :
  (∀ x, logs_only (body x)) -> logs_only (iter body l).
Proof.
  intros Hb. induction l as [|x l IH]; simpl; [apply logs_only_ret|].
  apply logs_only_bind; [apply Hb|]. intros _. apply IH.
Qed.

Lemma logs_only_for_of v body :
  (∀ x, logs_only (body x)) -> logs_only (for_of v body).
Proof.
  intros Hb. destruct v as [[| | | s | l |]|]; simpl;
    first [apply logs_only_throw | by apply logs_only_iter].
Qed.

Ltac logs_only_tac :=
  repeat first [ apply logs_only_bind; [|intros ?]
               | apply logs_only_for_of; intros ?
               | apply logs_only_log
               | apply logs_only_prop
               | apply logs_only_to_str
               | apply logs_only_throw
               | apply logs_only_get
               | apply logs_only_ret ].

Lemma commandInspect_logs_only args : logs_only (commandInspect args).
Proof.
  destruct args as [|name rest]; simpl; [apply logs_only_log|].
  apply logs_only_bind; [apply logs_only_get|]. intros r.
  destruct (obj_get (pokedex r) name) as [p|k|].
  - destruct (truthy p); [unfold inspect_record; logs_only_tac|apply logs_only_log].
  - logs_only_tac.
  - apply logs_only_log.
Qed.

Lemma iter_lines body (l : list json) :
  (∀ x, x ∈ l -> ∃ s, ∀ r,
     body x r = (AOk tt, mkRepl (sys r) (pokedex r) (out r ++ [Log s]))) ->
  ∃ ls, length ls = length l ∧ ∀ r,
     iter body l r = (AOk tt, mkRepl (sys r) (pokedex r) (out r ++ ls)).
Proof.
  induction l as [|x l IH]; intros Hb.
  - exists []. split; [done|]. intros r. destruct r. simpl. by rewrite app_nil_r.
  - destruct (Hb x) as [s Hs]; [apply elem_of_cons; by left|].
    destruct IH as (ls & Hlen & Hl).
    { intros y Hy. apply Hb. apply elem_of_cons. by right. }
    exists (Log s :: ls). split; [simpl; by f_equal|]. intros r.
    simpl. unfold mbind, App_bind, abind. rewrite Hs, Hl. simpl.
    by rewrite <- app_assoc.
Qed.

(** Loop bodies that read [x.key.name] (and possibly another property of
    [x]), convert what they read to strings and print one line. *)
Ltac line_body :=
  let x := fresh "x" in let Hx := fresh "Hx" in
  intros x Hx;
  match goal with
  | H : Forall _ _ |- _ =>
      rewrite Forall_forall in H; specialize (H x Hx); clear Hx
  end;
  unfold stat_ok, named_ok, has_field, str_ok, sub_name, field, to_str in *;
  destruct x as [| | | | |f]; try discriminate;
  repeat (simpl in *;
          match goal with
          | H : context [match ?t with _ => _ end] |- _ =>
              destruct t eqn:?; try discriminate
          end);
  simpl in *;
  repeat (match goal with
          | |- context [match ?t with _ => _ end] => destruct t eqn:?; try discriminate
          end; simpl in *; try congruence);
  eexists; intros []; reflexivity.

Lemma to_str_eq v s : js_str v = Some s -> to_str v = aret s.
Proof. intros H. unfold to_str. by rewrite H. Qed.

Lemma inspect_record_eq name rest r fs ss ts sn sh sw :
  pokedex r !! name = Some (JObj fs) ->
  js_str (lookup_field fs "name") = Some sn ->
  js_str (lookup_field fs "height") = Some sh ->
  js_str (lookup_field fs "weight") = Some sw ->
  lookup_field fs "stats" = Some (JArr ss) ->
  lookup_field fs "types" = Some (JArr ts) ->
  Forall (λ x, stat_ok x = true) ss ->
  Forall (λ x, named_ok "type" x = true) ts ->
  ∃ ls1 ls2, length ls1 = length ss ∧ length ls2 = length ts ∧
  commandInspect (name :: rest) r =
    (AOk tt, mkRepl (sys r) (pokedex r)
       (out r ++ [Log (String.append "Name: " sn);
                  Log (String.append "Height: " sh);
                  Log (String.append "Weight: " sw);
                  Log "Stats:"] ++ ls1 ++ Log "Types:" :: ls2)).
Proof.
  intros Hp Hn Hh Hw Hs Ht Hss Hts.
  unfold commandInspect, mbind, App_bind, abind, get_repl.
  unfold obj_get. rewrite Hp. simpl. unfold inspect_record.
  unfold mbind, App_bind, abind. simpl.
  rewrite (to_str_eq _ _ Hn), (to_str_eq _ _ Hh), (to_str_eq _ _ Hw). simpl.
  rewrite Hs, Ht. simpl.
  match goal with |- context [iter ?b ss] =>
    destruct (iter_lines b ss) as (ls1 & Hl1 & Hi1); [clear Hts; line_body|] end.
  match goal with |- context [iter ?b ts] =>
    destruct (iter_lines b ts) as (ls2 & Hl2 & Hi2); [clear Hss; line_body|] end.
  exists ls1, ls2. split; [done|]. split; [done|].
  rewrite Hi1. simpl. rewrite Hi2. simpl.
  by rewrite <- !app_assoc.
Qed.

(** [inspect] never changes the client state (cache, timers, requests)
    or the Pokedex, whatever the arguments and whether or not it throws:
    it only appends to the output. *)
Theorem inspect_read_only (args : list string) (r : Repl) :
  sys (snd (commandInspect args r)) = sys r ∧
  pokedex (snd (commandInspect args r)) = pokedex r ∧
  ∃ l, out (snd (commandInspect args r)) = out r ++ l.
Proof. apply commandInspect_logs_only. Qed.

(** [inspect] of a caught record whose name, height and weight convert to
    strings and whose [stats] and [types] are arrays of objects with a
    non-null [stat], resp. [type], whose printed fields convert too,
    prints the name, height and weight, "Stats:", one line per stat,
    "Types:" and one line per type, and completes normally. *)
Theorem inspect_caught_record (name : string) (rest : list string) (r : Repl)
    (fs : list (string * json)) (ss ts : list json) (sn sh sw : string) :
  pokedex r !! name = Some (JObj fs) ->
  js_str (lookup_field fs "name") = Some sn ->
  js_str (lookup_field fs "height") = Some sh ->
  js_str (lookup_field fs "weight") = Some sw ->
  lookup_field fs "stats" = Some (JArr ss) ->
  lookup_field fs "types" = Some (JArr ts) ->
  Forall (λ x, stat_ok x = true) ss ->
  Forall (λ x, named_ok "type" x = true) ts ->
  ∃ ls1 ls2, length ls1 = length ss ∧ length ls2 = length ts ∧
  commandInspect (name :: rest) r =
    (AOk tt, mkRepl (sys r) (pokedex r)
       (out r ++ [Log (String.append "Name: " sn);
                  Log (String.append "Height: " sh);
                  Log (String.append "Weight: " sw);
                  Log "Stats:"] ++ ls1 ++ Log "Types:" :: ls2)).
Proof. apply inspect_record_eq. Qed.

Lemma inspect_caught_record_witness :
  ∃ ls1 ls2, length ls1 = length pikachu_stats ∧
             length ls2 = length pikachu_types ∧
  commandInspect ["pikachu"] pikachu_repl =
    (AOk tt, mkRepl (sys pikachu_repl) (pokedex pikachu_repl)
       (out pikachu_repl ++
          [Log (String.append "Name: " "pikachu");
           Log (String.append "Height: " "4");
           Log (String.append "Weight: " "60");
           Log "Stats:"] ++ ls1 ++ Log "Types:" :: ls2)).
Proof.
  apply (inspect_caught_record "pikachu" [] pikachu_repl pikachu_fields
           pikachu_stats pikachu_types "pikachu" "4" "60");
    try reflexivity; repeat constructor.
Defined.

(** [inspect NAME] for a name that is not in the Pokedex but is a
    property name of [Object.prototype] (["constructor"], ["__proto__"])
    does not say "you have not caught that pokemon": it prints the
    inherited value's name, undefined height and weight and "Stats:", and
    then throws a TypeError on iterating [undefined]. *)
Theorem inspect_inherited_throws (name : string) (rest : list string)
    (r : Repl) :
  pokedex r !! name = None ->
  name ∈ object_prototype_keys ->
  commandInspect (name :: rest) r =
    (AThrow TypeError,
     mkRepl (sys r) (pokedex r)
       (out r ++ [Log (String.append "Name: " (inherited_name name));
                  Log "Height: undefined"; Log "Weight: undefined";
                  Log "Stats:"])).
Proof.
  intros Hn Hk. unfold commandInspect, mbind, App_bind, abind, get_repl.
  unfold obj_get. rewrite Hn, bool_decide_eq_true_2 by done. simpl.
  by rewrite <- !app_assoc.
Qed.

Lemma inspect_inherited_throws_witness :
  commandInspect ["constructor"] repl0 =
    (AThrow TypeError,
     mkRepl (sys repl0) (pokedex repl0)
       (out repl0 ++ [Log "Name: Object"; Log "Height: undefined";
                      Log "Weight: undefined"; Log "Stats:"])).
Proof.
  apply (inspect_inherited_throws "constructor" [] repl0); [reflexivity|].
  apply elem_of_cons. by left.
Defined.

(** After a successful [catch] of a new name, [inspect] of that name
    shows the record that was fetched (for records whose printed fields
    convert to strings and whose [stats] and [types] are well formed). *)
Theorem catch_then_inspect (net : string -> Outcome) (roll : option json -> bool)
    (name : string) (rest rest' : list string) (r : Repl) (status : Z)
    (fs : list (string * json)) (ss ts : list json) (sn sh sw : string) :
  lookup_truthy (obj_get (pokedex r) name) = false ->
  truthy_opt (val <$> cache (obj (sys r)) !! pokemon_url name) = false ->
  net (pokemon_url name) = Resp status (Some (JObj fs)) ->
  ok status = true ->
  str_ok (lookup_field fs "base_experience") = true ->
  roll (lookup_field fs "base_experience") = true ->
  js_str (lookup_field fs "name") = Some sn ->
  js_str (lookup_field fs "height") = Some sh ->
  js_str (lookup_field fs "weight") = Some sw ->
  lookup_field fs "stats" = Some (JArr ss) ->
  lookup_field fs "types" = Some (JArr ts) ->
  Forall (λ x, stat_ok x = true) ss ->
  Forall (λ x, named_ok "type" x = true) ts ->
  let r1 := snd (commandCatch net roll (name :: rest) r) in
  ∃ ls1 ls2, length ls1 = length ss ∧ length ls2 = length ts ∧
  commandInspect (name :: rest') r1 =
    (AOk tt, mkRepl (sys r1) (pokedex r1)
       (out r1 ++ [Log (String.append "Name: " sn);
                   Log (String.append "Height: " sh);
                   Log (String.append "Weight: " sw);
                   Log "Stats:"] ++ ls1 ++ Log "Types:" :: ls2)).
Proof.
  intros Hs Hm Hn Hok Hbe Hroll Hsn Hsh Hsw Hst Hty Hss Hts r1.
  apply (inspect_record_eq _ _ _ fs ss ts sn sh sw); try done.
  unfold r1. rewrite (catch_miss_ok_eq _ _ _ _ _ status fs) by done. simpl.
  rewrite Hbe, Hroll. simpl. apply lookup_insert_eq.
Qed.

Lemma catch_then_inspect_witness :
  let r1 := snd (commandCatch pikachu_net (fun _ => true) ["pikachu"] repl0) in
  ∃ ls1 ls2, length ls1 = length pikachu_stats ∧
             length ls2 = length pikachu_types ∧
  commandInspect ["pikachu"] r1 =
    (AOk tt, mkRepl (sys r1) (pokedex r1)
       (out r1 ++
          [Log (String.append "Name: " "pikachu");
           Log (String.append "Height: " "4");
           Log (String.append "Weight: " "60");
           Log "Stats:"] ++ ls1 ++ Log "Types:" :: ls2)).
Proof.
  apply (catch_then_inspect pikachu_net (fun _ => true) "pikachu" [] [] repl0
           200 pikachu_fields pikachu_stats pikachu_types "pikachu" "4" "60");
    try reflexivity; repeat constructor.
Defined.

(** [explore] does not catch errors: when [fetchLocation] throws, the
    error leaves the command after "Exploring NAME..." and the cache-miss
    line, with the cache object and the Pokedex unchanged (the REPL then
    reports "Error executing command:"). *)
Theorem explore_fetch_error_propagates (net : string -> Outcome)
    (name : string) (rest : list string) (r : Repl) (e : Error) :
  fst (fetchLocation net name (sys r)) = Throw e ->
  commandExplore net (name :: rest) r =
    (AThrow (NetErr e),
     mkRepl (logged (location_url name) (sys r)) (pokedex r)
       (out r ++ [Log (String.append "Exploring " (String.append name "..."));
                  Log (String.append "Cache miss, fetching: " (location_url name))])).
Proof.
  intros Hf. unfold commandExplore, mbind, App_bind, abind. simpl.
  rewrite (logged_fetch_throw _ _ _ e) by done. simpl.
  by rewrite <- app_assoc.
Qed.

Lemma explore_fetch_error_propagates_witness :
  fst (commandExplore (fun _ => NetFail) ["canalave-city-area"] repl0)
    = AThrow (NetErr NetworkFailure).
Proof.
  rewrite (explore_fetch_error_propagates _ _ _ _ NetworkFailure);
    reflexivity.
Defined.

(** [explore] of a location area whose record is not cached requests it,
    caches it, and prints "Exploring NAME...", the cache-miss line,
    "Found Pokemon:" and one line per encounter (for encounters that are
    objects with a non-null [pokemon] whose [name] converts to a
    string). *)
Theorem explore_lists_encounters (net : string -> Outcome) (name : string)
    (rest : list string) (r : Repl) (status : Z) (fs : list (string * json))
    (es : list json) :
  truthy_opt (val <$> cache (obj (sys r)) !! location_url name) = false ->
  net (location_url name) = Resp status (Some (JObj fs)) ->
  ok status = true ->
  lookup_field fs "pokemon_encounters" = Some (JArr es) ->
  Forall (λ x, named_ok "pokemon" x = true) es ->
  ∃ ls, length ls = length es ∧
  commandExplore net (name :: rest) r =
    (AOk tt,
     mkRepl (mkSys (env (logged (location_url name) (sys r)))
               (set_cache (<[location_url name :=
                             mkEntry (now (env (sys r))) (JObj fs)]>
                            (cache (obj (sys r)))) (obj (sys r))))
            (pokedex r)
            (out r ++ [Log (String.append "Exploring " (String.append name "..."));
                       Log (String.append "Cache miss, fetching: " (location_url name));
                       Log "Found Pokemon:"] ++ ls)).
Proof.
  intros Hm Hn Hok Hes Hf.
  unfold commandExplore, mbind, App_bind, abind. simpl.
  rewrite (logged_fetch_miss_ok _ _ _ status (JObj fs)) by done. simpl.
  rewrite Hes. simpl.
  match goal with |- context [iter ?b es] =>
    destruct (iter_lines b es) as (ls & Hl & Hi); [line_body|] end.
  exists ls. split; [done|]. rewrite Hi. simpl.
  by rewrite <- !app_assoc.
Qed.

Lemma explore_lists_encounters_witness :
  ∃ ls : list Line, length ls = 2 ∧
  fst (commandExplore (fun _ => Resp 200 (Some (JObj canalave_fields)))
         ["canalave-city-area"] repl0) = AOk tt.
Proof.
  destruct (explore_lists_encounters (fun _ => Resp 200 (Some (JObj canalave_fields)))
              "canalave-city-area" [] repl0 200 canalave_fields
              [JObj [("pokemon", JObj [("name", JStr "tentacool")])];
               JObj [("pokemon", JObj [("name", JStr "tentacruel")])]])
    as (ls & Hl & He); try reflexivity; [repeat constructor|].
  exists ls. split; [exact Hl|]. by rewrite He.
Defined.
